(** * The live channel of the blog platform

    A shallow embedding of the socket layer (`setupWebSockets`), of the
    Comment and Post schemas it writes through, and of the REST route
    that creates comments, followed by the properties of the fan-out
    that the design document states.

    The document store, the socket server and the token library are
    collaborators of the code.  Their observable behaviour is written
    out here as far as the handlers depend on it:
    - a query whose id string is no ObjectId rejects before it reaches
      the store; any round trip to the store may reject;
    - `save` validates against the schema before it writes, a document
      read from the store as much as a new one;
    - an ObjectId prints as 24 hexadecimal digits in lower case,
      whatever the case of the string it was cast from, and an array of
      ObjectIds compares a string with the printed form of its elements;
    - `io.to(room)` reaches every socket in the room, `socket.to(room)`
      every socket in the room but the sending one,
      `socket.broadcast` every socket but the sending one,
      `io.emit` every socket;
    - an event may arrive without the payload its handler declares.

    A handler is run to its end before the next event is taken up: two
    handlers interleaving at their `await`s are not part of the
    embedding. *)

From Stdlib Require Import NArith ZArith Ascii String.
From stdpp Require Import base option list strings gmap fin_maps.

Open Scope string_scope.
Open Scope list_scope.

(** ** Strings whose length and white space the schema inspects

    The body of a comment is kept as its UTF-16 code units: `maxlength`
    counts code units and `trim` removes the ECMAScript white space and
    line terminators at both ends. *)

Definition is_white_space (c : N) : bool :=
  ((9 <=? c) && (c <=? 13) || (c =? 32) || (c =? 160) || (c =? 5760)
   || (8192 <=? c) && (c <=? 8202) || (c =? 8232) || (c =? 8233)
   || (c =? 8239) || (c =? 8287) || (c =? 12288) || (c =? 65279))%N.

Fixpoint trim_start (s : list N) : list N :=
  match s with
  | c :: s' => if is_white_space c then trim_start s' else s
  | [] => []
  end.

Definition trim_end (s : list N) : list N := rev (trim_start (rev s)).

Definition trim (s : list N) : list N := trim_end (trim_start s).

(** ** Documents *)

Inductive Status := draft | published | archived.

Inductive Action := like | unlike.

Inductive TypingType := comment | reply.

Inductive Presence := online | offline.

Module User.
(** The fields of a user the live channel reads. *)
Record t := mk { username : string }.
End User.

Module Post.
(** `IPost`: the fields the handlers read or write; the others are
    carried along unchanged by `save` and are left out. *)
Record t := mk { author : string; status : Status; likes : list string }.
Definition set_likes (l : list string) (p : t) : t :=
  mk (author p) (status p) l.
End Post.

Module Comment.
(** `IComment` without its timestamps. *)
Record t := mk {
  content : list N;
  author : string;
  post : string;
  parentComment : option string;
  likes : list string;
  isEdited : bool
}.
Definition set_likes (l : list string) (c : t) : t :=
  mk (content c) (author c) (post c) (parentComment c) l (isEdited c).
Definition edit (body : list N) (c : t) : t :=
  mk body (author c) (post c) (parentComment c) (likes c) true.
End Comment.

(** A comment as it travels in an event: the stored document under its
    id, with `author` populated (or null when that user is gone). *)
Record CommentView := {
  view_id : string;
  view_doc : Comment.t;
  view_author : option User.t
}.

(** ** Connections and events *)

(** `AuthenticatedSocket`: the identity bound at the handshake and the
    rooms joined.  Socket ids are opaque; the private room every socket
    has under its own id is no post room and is left out. *)
Record Socket := {
  userId : string;
  username : string;
  rooms : gset string
}.

Definition set_rooms (r : gset string) (s : Socket) : Socket :=
  {| userId := userId s; username := username s; rooms := r |}.

(** The events whose handler declares a payload. *)
Module Name.
Inductive t :=
| join_post | leave_post | new_comment | update_comment | delete_comment
| post_like | comment_like | typing_start | typing_stop | private_message.
End Name.

(** Events a client sends: with the payload the handler declares, or,
    since nothing holds a client to that declaration, with no payload
    at all. *)
Inductive ClientEvent :=
| join_post (postId : string)
| leave_post (postId : string)
| new_comment (postId : string) (content : list N) (parentComment : option string)
| update_comment (commentId : string) (content : list N) (postId : string)
| delete_comment (commentId postId : string)
| post_like (postId : string) (action : Action)
| comment_like (commentId postId : string) (action : Action)
| typing_start (postId : string) (type : TypingType)
| typing_stop (postId : string)
| user_online
| send_private_message (toUserId : string) (message : string)
| disconnect
| without_payload (name : Name.t).

(** Events the server sends.  `private_message` is shown without its
    timestamp. *)
Inductive ServerEvent :=
| comment_added (view : CommentView) (postId : string)
| comment_updated (view : CommentView) (postId : string)
| comment_deleted (commentId postId : string)
| post_likes_updated (postId : string) (likes : nat) (action : Action)
| comment_likes_updated (commentId postId : string) (likes : nat) (action : Action)
| user_typing (userId username : string) (type : TypingType)
| user_stopped_typing (userId username : string)
| user_status (userId username : string) (status : Presence)
| private_message (fromId fromName toId toName : string) (message : string)
| comment_error (error : string)
| post_error (error : string)
| message_error (error : string).

(** One event handed to one socket. *)
Definition Delivery : Type := nat * ServerEvent.

(** ** The world the handlers run in *)

Record World := {
  users : gmap string User.t;
  posts : gmap string Post.t;
  comments : gmap string Comment.t;
  sockets : gmap nat Socket;
  (** the fate of the coming round trips to the store, first one first:
      [true] is a round trip that rejects; past the end all succeed *)
  outages : list bool;
  (** how many ObjectIds this process has minted *)
  minted : nat
}.

Definition set_posts (f : gmap string Post.t → gmap string Post.t) (w : World) : World :=
  {| users := users w; posts := f (posts w); comments := comments w;
     sockets := sockets w; outages := outages w; minted := minted w |}.

Definition set_comments (f : gmap string Comment.t → gmap string Comment.t) (w : World) : World :=
  {| users := users w; posts := posts w; comments := f (comments w);
     sockets := sockets w; outages := outages w; minted := minted w |}.

Definition set_sockets (f : gmap nat Socket → gmap nat Socket) (w : World) : World :=
  {| users := users w; posts := posts w; comments := comments w;
     sockets := f (sockets w); outages := outages w; minted := minted w |}.

Definition set_outages (o : list bool) (w : World) : World :=
  {| users := users w; posts := posts w; comments := comments w;
     sockets := sockets w; outages := o; minted := minted w |}.

Definition set_minted (n : nat) (w : World) : World :=
  {| users := users w; posts := posts w; comments := comments w;
     sockets := sockets w; outages := outages w; minted := n |}.

(** ** Computations: state, deliveries, exceptions

    A handler threads the world, hands out events and may throw.  The
    world reached and the events already handed out survive a throw. *)

Inductive outcome (A : Type) := Returned (a : A) | Thrown.
Arguments Returned {A} a.
Arguments Thrown {A}.

Definition M (A : Type) : Type := World → World * list Delivery * outcome A.

Definition ret {A} (a : A) : M A := λ w, (w, [], Returned a).

Definition throw {A} : M A := λ w, (w, [], Thrown).

Definition bind {A B} (m : M A) (f : A → M B) : M B := λ w,
  match m w with
  | (w1, o1, Returned a) =>
      match f a w1 with (w2, o2, r) => (w2, o1 ++ o2, r) end
  | (w1, o1, Thrown) => (w1, o1, Thrown)
  end.

(** `try { m } catch (error) { h }` *)
Definition try_catch {A} (m : M A) (h : M A) : M A := λ w,
  match m w with
  | (w1, o1, Returned a) => (w1, o1, Returned a)
  | (w1, o1, Thrown) =>
      match h w1 with (w2, o2, r) => (w2, o1 ++ o2, r) end
  end.

Definition get : M World := λ w, (w, [], Returned w).

Definition modify (f : World → World) : M unit := λ w, (f w, [], Returned tt).

Definition deliver (ds : World → list Delivery) : M unit := λ w, (w, ds w, Returned tt).

Notation "'let!' x ':=' m 'in' k" := (bind m (λ x, k))
  (at level 10, x name, m at level 100, k at level 200).
Notation "m ;;; k" := (bind m (λ _, k))
  (at level 100, right associativity).

(** The parts of a finished run. *)
Definition reached {A} (r : World * list Delivery * outcome A) : World := r.1.1.
Definition emitted {A} (r : World * list Delivery * outcome A) : list Delivery := r.1.2.
Definition result {A} (r : World * list Delivery * outcome A) : outcome A := r.2.

(** ** What the libraries decide

    Which tokens verify under the configured secret and what `userId`
    their payload carries, which strings are ObjectIds, and which
    ObjectId is minted next, are facts of the token library and of the
    store's driver. *)
Class Collaborators := {
  (** `jwt.verify(token, secret)`: [None] when it throws, otherwise the
      payload's `userId`, absent or present *)
  jwt_verify : string → option (option string);
  (** strings the driver casts to an ObjectId *)
  is_object_id : string → bool;
  (** the n-th ObjectId this process mints *)
  new_object_id : nat → string;
  (** `new ObjectId(s).toHexString()`: how the ObjectId a string is
      cast to prints *)
  toHexString : string → string
}.

Section Server.
Context `{Collaborators}.

(** *** The store *)

(** One round trip to the store; it rejects when the next entry of
    [outages] says so. *)
Definition round_trip : M unit := λ w,
  (set_outages (tail (outages w)) w, [],
   match outages w with
   | true :: _ => Thrown
   | _ => Returned tt
   end).

(** Casting a query's id: a `CastError` when the string is no ObjectId. *)
Definition cast_id (id : string) : M string :=
  if is_object_id id then ret id else throw.

(** `Model.findById(id)` on one of the collections. *)
Definition findById {T} (coll : World → gmap string T) (id : string) : M (option T) :=
  cast_id id ;;;
  round_trip ;;;
  let! w := get in
  ret (coll w !! id).

(** `doc.populate('author', 'username avatar')` *)
Definition populate (id : string) (c : Comment.t) : M CommentView :=
  round_trip ;;;
  let! w := get in
  ret {| view_id := id; view_doc := c; view_author := users w !! Comment.author c |}.

(** `new Comment({content, author, post, parentComment})`: an id is
    minted and the schema's setter trims the body; `likes` and
    `isEdited` take their defaults. *)
Definition new_Comment (content : list N) (author post : string)
    (parentComment : option string) : M (string * Comment.t) :=
  let! w := get in
  modify (set_minted (S (minted w))) ;;;
  ret (new_object_id (minted w),
       Comment.mk (trim content) author post parentComment [] false).

(** The schema's validators, run on the document as constructed:
    `content` required (an empty string does not count) and at most
    1000 units long; `author` and `post` required ObjectIds;
    `parentComment` an ObjectId when present. *)
Definition valid_comment (c : Comment.t) : bool :=
  negb (length (Comment.content c) =? 0)%nat
  && (length (Comment.content c) <=? 1000)%nat
  && is_object_id (Comment.author c)
  && is_object_id (Comment.post c)
  && match Comment.parentComment c with
     | Some p => is_object_id p
     | None => true
     end.

(** `comment.save()` of a new document: validation, then the insert,
    which the store refuses under an id already taken. *)
Definition save_new_comment (id : string) (c : Comment.t) : M unit :=
  if valid_comment c then
    round_trip ;;;
    let! w := get in
    match comments w !! id with
    | Some _ => throw
    | None => modify (set_comments (insert id c))
    end
  else throw.

(** `post.save()` of a post read before.  The paths its validators
    look at are not among the fields kept here, and no route or
    handler stores a post that fails them. *)
Definition save_post (id : string) (p : Post.t) : M unit :=
  round_trip ;;; modify (set_posts (insert id p)).

(** The validators of `content`, which `save` runs on a comment read
    from the store as it does on a new one. *)
Definition content_in_bounds (c : Comment.t) : bool :=
  negb (length (Comment.content c) =? 0)%nat
  && (length (Comment.content c) <=? 1000)%nat.

(** `comment.save()` of a comment read before: validation, then the
    write. *)
Definition save_comment (id : string) (c : Comment.t) : M unit :=
  if content_in_bounds c
  then round_trip ;;; modify (set_comments (insert id c))
  else throw.

(** `Comment.findByIdAndUpdate(id, {content, isEdited: true}, {new: true})
    .populate('author', ...)`: the update runs the schema's setters but
    not its validators. *)
Definition findByIdAndUpdate (id : string) (content : list N) : M (option CommentView) :=
  cast_id id ;;;
  round_trip ;;;
  let! w := get in
  match comments w !! id with
  | None => ret None
  | Some c =>
      let c' := Comment.edit (trim content) c in
      modify (set_comments (insert id c')) ;;;
      let! v := populate id c' in
      ret (Some v)
  end.

(** `Comment.findByIdAndDelete(id)` *)
Definition findByIdAndDelete (id : string) : M (option Comment.t) :=
  cast_id id ;;;
  round_trip ;;;
  let! w := get in
  modify (set_comments (delete id)) ;;;
  ret (comments w !! id).

(** *** Arrays of ObjectIds

    The elements are kept as they print.  `includes` and `indexOf`
    compare the value they are given with that (`obj == this[i]`): a
    string as it is, an ObjectId as it prints. *)

Definition includes (l : list string) (x : string) : bool := bool_decide (x ∈ l).

(** `indexOf`: the first position of [x], or -1. *)
Fixpoint indexOf (l : list string) (x : string) : Z :=
  match l with
  | [] => -1
  | y :: l' =>
      if decide (x = y) then 0
      else let i := indexOf l' x in if (i =? -1)%Z then -1 else Z.succ i
  end.

(** `splice(index, 1)` *)
Definition splice (l : list string) (index : Z) : list string :=
  delete (Z.to_nat index) l.

(** `push`: the element is cast to an ObjectId first. *)
Definition push (l : list string) (x : string) : M (list string) :=
  if is_object_id x then ret (l ++ [toHexString x]) else throw.

(** *** The socket server *)

Definition in_room (room : string) (p : nat * Socket) : Prop := room ∈ rooms p.2.

#[global] Instance in_room_dec room p : Decision (in_room room p).
Proof. unfold in_room. apply _. Defined.

Definition addressed (ev : ServerEvent) (ps : list (nat * Socket)) : list Delivery :=
  (λ p, (p.1, ev)) <$> ps.

(** `socket.emit(ev)` *)
Definition socket_emit (sid : nat) (ev : ServerEvent) : M unit :=
  deliver (λ _, [(sid, ev)]).

(** `io.to(room).emit(ev)` *)
Definition io_to_emit (room : string) (ev : ServerEvent) : M unit :=
  deliver (λ w, addressed ev (filter (in_room room) (map_to_list (sockets w)))).

(** `socket.to(room).emit(ev)` *)
Definition socket_to_emit (sid : nat) (room : string) (ev : ServerEvent) : M unit :=
  deliver (λ w, addressed ev
    (filter (λ p, p.1 ≠ sid) (filter (in_room room) (map_to_list (sockets w))))).

(** `socket.broadcast.emit(ev)` *)
Definition socket_broadcast_emit (sid : nat) (ev : ServerEvent) : M unit :=
  deliver (λ w, addressed ev (filter (λ p, p.1 ≠ sid) (map_to_list (sockets w)))).

(** `io.emit(ev)` *)
Definition io_emit (ev : ServerEvent) : M unit :=
  deliver (λ w, addressed ev (map_to_list (sockets w))).

(** `socket.join(room)` and `socket.leave(room)` *)
Definition socket_join (sid : nat) (room : string) : M unit :=
  modify (set_sockets (alter (λ s, set_rooms (rooms s ∪ {[room]}) s) sid)).

Definition socket_leave (sid : nat) (room : string) : M unit :=
  modify (set_sockets (alter (λ s, set_rooms (rooms s ∖ {[room]}) s) sid)).

Definition room_of (postId : string) : string := "post-" +:+ postId.

(** ** The handlers of `setupWebSockets` *)

(** `x || null` on an optional string *)
Definition or_null (x : option string) : option string :=
  match x with
  | Some "" => None
  | _ => x
  end.

(** The handshake middleware (`io.use`): what `next` is called with.
    A payload without `userId` makes the lookup a query for a null id,
    which no user answers. *)
Inductive Handshake :=
| refused (message : string)
| accepted (userId username : string).

Definition authenticate (token : option string) : M Handshake :=
  try_catch
    (match or_null token with
     | None => ret (refused "Authentication error")
     | Some token =>
         match jwt_verify token with
         | None => throw
         | Some decoded =>
             let! user :=
               match decoded with
               | Some id => findById users id
               | None => round_trip ;;; ret None
               end in
             match user, decoded with
             | Some user, Some id => ret (accepted id (User.username user))
             | _, _ => ret (refused "User not found")
             end
         end
     end)
    (ret (refused "Authentication error")).

(** A client connecting under socket id [sid]: the middleware runs, and
    only a socket it lets through is registered and gets handlers. *)
Definition connect (sid : nat) (token : option string) : M Handshake :=
  let! h := authenticate token in
  match h with
  | accepted id name =>
      modify (set_sockets (insert sid {| userId := id; username := name; rooms := ∅ |})) ;;;
      ret h
  | refused _ => ret h
  end.

Definition on_join_post (sid : nat) (postId : string) : M unit :=
  socket_join sid (room_of postId).

Definition on_leave_post (sid : nat) (postId : string) : M unit :=
  socket_leave sid (room_of postId).

Definition on_new_comment (sid : nat) (socket : Socket) (postId : string)
    (content : list N) (parentComment : option string) : M unit :=
  try_catch
    (let! c := new_Comment content (userId socket) postId (or_null parentComment) in
     save_new_comment c.1 c.2 ;;;
     let! view := populate c.1 c.2 in
     io_to_emit (room_of postId) (comment_added view postId))
    (socket_emit sid (comment_error "Failed to add comment")).

Definition on_update_comment (sid : nat) (commentId : string) (content : list N)
    (postId : string) : M unit :=
  try_catch
    (let! found := findByIdAndUpdate commentId content in
     match found with
     | Some view => io_to_emit (room_of postId) (comment_updated view postId)
     | None => ret tt
     end)
    (socket_emit sid (comment_error "Failed to update comment")).

Definition on_delete_comment (sid : nat) (commentId postId : string) : M unit :=
  try_catch
    (findByIdAndDelete commentId ;;;
     io_to_emit (room_of postId) (comment_deleted commentId postId))
    (socket_emit sid (comment_error "Failed to delete comment")).

(** The branch on `data.action` that both like handlers run on the
    document's `likes`. *)
Definition apply_action (likes : list string) (userId : string) (action : Action)
    : M (list string) :=
  match action with
  | like =>
      if negb (includes likes userId) then push likes userId else ret likes
  | unlike =>
      let index := indexOf likes userId in
      if (index >? -1)%Z then ret (splice likes index) else ret likes
  end.

Definition on_post_like (sid : nat) (socket : Socket) (postId : string)
    (action : Action) : M unit :=
  try_catch
    (let! post := findById posts postId in
     match post with
     | None => ret tt
     | Some post =>
         let! likes := apply_action (Post.likes post) (userId socket) action in
         save_post postId (Post.set_likes likes post) ;;;
         io_to_emit (room_of postId) (post_likes_updated postId (length likes) action)
     end)
    (socket_emit sid (post_error "Failed to update likes")).

Definition on_comment_like (sid : nat) (socket : Socket) (commentId postId : string)
    (action : Action) : M unit :=
  try_catch
    (let! found := findById comments commentId in
     match found with
     | None => ret tt
     | Some c =>
         let! likes := apply_action (Comment.likes c) (userId socket) action in
         save_comment commentId (Comment.set_likes likes c) ;;;
         io_to_emit (room_of postId)
           (comment_likes_updated commentId postId (length likes) action)
     end)
    (socket_emit sid (comment_error "Failed to update comment likes")).

Definition on_typing_start (sid : nat) (socket : Socket) (postId : string)
    (type : TypingType) : M unit :=
  socket_to_emit sid (room_of postId)
    (user_typing (userId socket) (username socket) type).

Definition on_typing_stop (sid : nat) (socket : Socket) (postId : string) : M unit :=
  socket_to_emit sid (room_of postId)
    (user_stopped_typing (userId socket) (username socket)).

Definition on_user_online (sid : nat) (socket : Socket) : M unit :=
  socket_broadcast_emit sid (user_status (userId socket) (username socket) online).

Definition on_private_message (sid : nat) (socket : Socket) (toUserId message : string)
    : M unit :=
  try_catch
    (let! toUser := findById users toUserId in
     match toUser with
     | None => socket_emit sid (message_error "User not found")
     | Some toUser =>
         io_emit (private_message (userId socket) (username socket)
                    toUserId (User.username toUser) message)
     end)
    (socket_emit sid (message_error "Failed to send message")).

(** The socket has left the server and its rooms by the time the
    `disconnect` handler runs. *)
Definition on_disconnect (sid : nat) (socket : Socket) : M unit :=
  modify (set_sockets (delete sid)) ;;;
  socket_broadcast_emit sid (user_status (userId socket) (username socket) offline).

(** Reading a field of a payload that is `undefined`: a `TypeError`. *)
Definition field_of_undefined {A} : M A := throw.

(** An event that arrives without a payload.  `join-post` and
    `leave-post` splice their parameter into the name of the room.
    Every other handler starts by reading a field of its parameter:
    inside its `try` where it has one, so that its `catch` answers;
    `typing-start` and `typing-stop` have none, and the error leaves
    the handler. *)
Definition on_without_payload (sid : nat) (name : Name.t) : M unit :=
  match name with
  | Name.join_post => on_join_post sid "undefined"
  | Name.leave_post => on_leave_post sid "undefined"
  | Name.new_comment =>
      try_catch field_of_undefined
        (socket_emit sid (comment_error "Failed to add comment"))
  | Name.update_comment =>
      try_catch field_of_undefined
        (socket_emit sid (comment_error "Failed to update comment"))
  | Name.delete_comment =>
      try_catch field_of_undefined
        (socket_emit sid (comment_error "Failed to delete comment"))
  | Name.post_like =>
      try_catch field_of_undefined
        (socket_emit sid (post_error "Failed to update likes"))
  | Name.comment_like =>
      try_catch field_of_undefined
        (socket_emit sid (comment_error "Failed to update comment likes"))
  | Name.typing_start | Name.typing_stop => field_of_undefined
  | Name.private_message =>
      try_catch field_of_undefined
        (socket_emit sid (message_error "Failed to send message"))
  end.

(** An event arriving from socket [sid].  A socket the server does not
    know has no handlers. *)
Definition dispatch (sid : nat) (ev : ClientEvent) : M unit :=
  let! w := get in
  match sockets w !! sid with
  | None => ret tt
  | Some socket =>
      match ev with
      | join_post postId => on_join_post sid postId
      | leave_post postId => on_leave_post sid postId
      | new_comment postId content parentComment =>
          on_new_comment sid socket postId content parentComment
      | update_comment commentId content postId =>
          on_update_comment sid commentId content postId
      | delete_comment commentId postId => on_delete_comment sid commentId postId
      | post_like postId action => on_post_like sid socket postId action
      | comment_like commentId postId action =>
          on_comment_like sid socket commentId postId action
      | typing_start postId type => on_typing_start sid socket postId type
      | typing_stop postId => on_typing_stop sid socket postId
      | user_online => on_user_online sid socket
      | send_private_message toUserId message =>
          on_private_message sid socket toUserId message
      | disconnect => on_disconnect sid socket
      | without_payload name => on_without_payload sid name
      end
  end.

(** ** The REST route that creates a comment (`router.post('/')`) *)

Record CommentBody := {
  body_content : list N;
  body_post : string;
  body_parentComment : option string
}.

Inductive Response :=
| json (status : nat) (error : string)
| json_comment (status : nat) (view : CommentView)
| next_error.

(** `validateComment`: the message of the first failing rule, the
    keys taken in the order of the schema.  The validator trims before
    it measures, and an empty string is never a valid string to it
    (the library's own wording for that case names the key in quotes;
    the quotes are left out here). *)
Definition validateComment (body : CommentBody) : option string :=
  if (length (trim (body_content body)) =? 0)%nat
  then Some "content is not allowed to be empty"
  else if (1000 <? length (trim (body_content body)))%nat
  then Some "Comment cannot exceed 1000 characters"
  else if bool_decide (body_post body = "")
  then Some "post is not allowed to be empty"
  else None.

Definition create_comment_route (user_id : string) (body : CommentBody) : M Response :=
  try_catch
    (match validateComment body with
     | Some error => ret (json 400 error)
     | None =>
         let! post := findById posts (body_post body) in
         match post with
         | Some (Post.mk _ published _) =>
             let! parent_ok :=
               match or_null (body_parentComment body) with
               | Some parentComment =>
                   let! parent := findById comments parentComment in
                   ret (bool_decide (is_Some parent))
               | None => ret true
               end in
             if parent_ok : bool then
               let! c := new_Comment (body_content body) user_id (body_post body)
                           (or_null (body_parentComment body)) in
               save_new_comment c.1 c.2 ;;;
               let! view := populate c.1 c.2 in
               ret (json_comment 201 view)
             else ret (json 404 "Parent comment not found")
         | _ => ret (json 404 "Post not found")
         end
     end)
    (ret next_error).

End Server.

(** ** A concrete deployment to run the handlers on

    ObjectIds in their 24-digit hexadecimal form, printed in lower
    case; a token `signed:<id>`
    verifies and carries that `userId`, the token `signed` verifies and
    carries none, every other token fails verification. *)

Definition is_hex_digit (a : ascii) : bool :=
  let n := nat_of_ascii a in
  ((48 <=? n) && (n <=? 57) || (97 <=? n) && (n <=? 102) || (65 <=? n) && (n <=? 70))%nat.

Definition hex24 (s : string) : bool :=
  (String.length s =? 24)%nat && forallb is_hex_digit (list_ascii_of_string s).

Definition demo_verify (token : string) : option (option string) :=
  if String.prefix "signed:" token
  then Some (Some (String.substring 7 (String.length token - 7) token))
  else if bool_decide (token = "signed") then Some None else None.

Definition demo_mint (n : nat) : string :=
  "c0c0c0c0c0c0c0c0c0c0c0"
  +:+ String (ascii_of_nat (48 + (n / 10) mod 10))
        (String (ascii_of_nat (48 + n mod 10)) "").

Definition to_lower (a : ascii) : ascii :=
  let n := nat_of_ascii a in
  if ((65 <=? n) && (n <=? 70))%nat then ascii_of_nat (n + 32) else a.

Definition demo_print (s : string) : string :=
  string_of_list_ascii (to_lower <$> list_ascii_of_string s).

Definition demo : Collaborators :=
  {| jwt_verify := demo_verify; is_object_id := hex24; new_object_id := demo_mint;
     toHexString := demo_print |}.

(** The same deployment with every token made from a `user._id`: a
    token that carries an id in any other spelling does not verify. *)
Definition issued_verify (token : string) : option (option string) :=
  match demo_verify token with
  | Some (Some id) => if bool_decide (demo_print id = id) then Some (Some id) else None
  | other => other
  end.

Definition issued : Collaborators :=
  {| jwt_verify := issued_verify; is_object_id := hex24; new_object_id := demo_mint;
     toHexString := demo_print |}.

Definition alice_id : string := "a11ce0000000000000000001".
Definition bob_id : string := "b0b000000000000000000002".
Definition carol_id : string := "ca501000000000000000003a".
Definition post_42 : string := "000000000000000000000042".
Definition post_43 : string := "000000000000000000000043".
Definition missing_id : string := "0000000000000000000000ff".

(** Three users, a published post and a draft, no comment; Alice on
    socket 1 and Bob on socket 2 have joined the room of post 42,
    Carol on socket 3 has joined no room. *)
Definition demo_world : World :=
  {| users := {[ alice_id := User.mk "alice"; bob_id := User.mk "bob";
                 carol_id := User.mk "carol" ]};
     posts := {[ post_42 := Post.mk alice_id published [];
                 post_43 := Post.mk alice_id draft [] ]};
     comments := ∅;
     sockets := {[ 1 := {| userId := alice_id; username := "alice";
                            rooms := {[ room_of post_42 ]} |};
                   2 := {| userId := bob_id; username := "bob";
                            rooms := {[ room_of post_42 ]} |};
                   3 := {| userId := carol_id; username := "carol"; rooms := ∅ |} ]};
     outages := [];
     minted := 0 |}.

(** The code units of a text typed in ASCII. *)
Definition said (s : string) : list N :=
  (λ a, N.of_nat (nat_of_ascii a)) <$> list_ascii_of_string s.

(** Carol has joined the room of post 43, which is still a draft. *)
Definition draft_room_world : World :=
  reached (@dispatch demo 3 (join_post post_43) demo_world).

Definition comment_7 : string := "000000000000000000000007".

(** Bob has liked post 42 and the one comment on it. *)
Definition liked_world : World :=
  {| users := users demo_world;
     posts := {[ post_42 := Post.mk alice_id published [bob_id] ]};
     comments := {[ comment_7 := Comment.mk (said "first") alice_id post_42 None
                                   [bob_id] false ]};
     sockets := sockets demo_world;
     outages := [];
     minted := 0 |}.

(** The round trip of the next save will succeed and the one after it,
    a `populate`, will fail. *)
Definition flaky_world : World := set_outages [false; true] demo_world.

(** Alice's id as a token may spell it: the same ObjectId, in
    capitals. *)
Definition alice_in_capitals : string := "A11CE0000000000000000001".

(** Alice has liked post 42 and the one comment on it, and has one more
    socket, socket 4, bound to her id in capitals. *)
Definition capitals_world : World :=
  {| users := users demo_world;
     posts := {[ post_42 := Post.mk alice_id published [alice_id] ]};
     comments := {[ comment_7 := Comment.mk (said "first") bob_id post_42 None
                                   [alice_id] false ]};
     sockets := <[ 4 := {| userId := alice_in_capitals; username := "alice";
                          rooms := ∅ |} ]> (sockets demo_world);
     outages := [];
     minted := 0 |}.

(** ** Vocabulary of the properties *)

(** The document `new-comment` constructs from its payload. *)
Definition drafted (socket : Socket) (postId : string) (content : list N)
    (parentComment : option string) : Comment.t :=
  Comment.mk (trim content) (userId socket) postId (or_null parentComment) [] false.

Definition failed_to_add (sid : nat) : list Delivery :=
  [(sid, comment_error "Failed to add comment")].

(** The list `apply_action` hands back when it does not throw. *)
Definition acted `{Collaborators} (likes : list string) (userId : string) (action : Action)
    : list string :=
  match action with
  | like => if includes likes userId then likes else likes ++ [toHexString userId]
  | unlike =>
      if (indexOf likes userId >? -1)%Z then splice likes (indexOf likes userId) else likes
  end.

(** What a like event is about: a post, or a comment. *)
Inductive Entity := a_post (id : string) | a_comment (id : string).

Definition entity_id (e : Entity) : string :=
  match e with a_post id | a_comment id => id end.

(** The like list the store holds for an entity. *)
Definition likes_of (w : World) (e : Entity) : option (list string) :=
  match e with
  | a_post id => Post.likes <$> posts w !! id
  | a_comment id => Comment.likes <$> comments w !! id
  end.

(** The like event about an entity; for a comment the client names the
    post whose room is to hear of it. *)
Definition like_event (e : Entity) (postId : string) (action : Action) : ClientEvent :=
  match e with
  | a_post id => post_like id action
  | a_comment id => comment_like id postId action
  end.

Definition likes_updated (e : Entity) (postId : string) (likes : nat) (action : Action)
    : ServerEvent :=
  match e with
  | a_post id => post_likes_updated id likes action
  | a_comment id => comment_likes_updated id postId likes action
  end.

Definition like_room (e : Entity) (postId : string) : string :=
  match e with
  | a_post id => room_of id
  | a_comment _ => room_of postId
  end.

(** The mutation events that name a stored document, the id they name,
    whether the store holds it, and the scoped error of their handler. *)
Definition is_mutation (ev : ClientEvent) : bool :=
  match ev with
  | post_like _ _ | comment_like _ _ _ | update_comment _ _ _ => true
  | _ => false
  end.

Definition referent_id (ev : ClientEvent) : string :=
  match ev with
  | post_like postId _ => postId
  | comment_like commentId _ _ | update_comment commentId _ _ => commentId
  | _ => ""
  end.

Definition referent_stored (w : World) (ev : ClientEvent) : bool :=
  match ev with
  | post_like postId _ => bool_decide (is_Some (posts w !! postId))
  | comment_like commentId _ _ | update_comment commentId _ _ =>
      bool_decide (is_Some (comments w !! commentId))
  | _ => false
  end.

Definition scoped_error (ev : ClientEvent) : ServerEvent :=
  match ev with
  | post_like _ _ => post_error "Failed to update likes"
  | comment_like _ _ _ => comment_error "Failed to update comment likes"
  | update_comment _ _ _ => comment_error "Failed to update comment"
  | _ => comment_error ""
  end.

(** No identity is twice in any like list of the store. *)
Definition likes_distinct (w : World) : Prop :=
  ∀ e likes, likes_of w e = Some likes → NoDup likes.

(** Every socket of the registry is bound to a userId spelled as
    ObjectIds print. *)
Definition identities_printed `{Collaborators} (w : World) : Prop :=
  ∀ sid s, sockets w !! sid = Some s → toHexString (userId s) = userId s.

(** Every token that verifies carries its userId spelled as ObjectIds
    print, as a token made from a `user._id` does. *)
Definition tokens_printed `{Collaborators} : Prop :=
  ∀ token id, jwt_verify token = Some (Some id) → toHexString id = id.

(** The worlds the server can come to from [w] by handshakes and
    events, each handled to its end before the next. *)
Inductive comes_to `{Collaborators} (w : World) : World → Prop :=
| comes_to_here : comes_to w w
| comes_to_connect w' sid token :
    comes_to w w' → comes_to w (reached (connect sid token w'))
| comes_to_dispatch w' sid ev :
    comes_to w w' → comes_to w (reached (dispatch sid ev w')).

(** * The rest of the server, and its client *)

(** ** The REST side *)

Module Role.
(** `role` of a user document. *)
Inductive t := user | admin | moderator.
End Role.

#[global] Instance Role_eq_dec : EqDecision Role.t.
Proof. solve_decision. Defined.

(** `req.user` as far as the middleware and the routes read it. *)
Record Requester := { requester_id : string; role : Role.t }.

(** What a middleware does with a request: answer it, pass it on with
    what it attached to the request, or pass an error on. *)
Inductive Next (A : Type) :=
| responded (status : nat) (error : string)
| next (a : A)
| next_thrown.
Arguments responded {A} status error.
Arguments next {A} a.
Arguments next_thrown {A}.

(** What a route answers. *)
Inductive Answer :=
| answer_error (status : nat) (error : string)
| answer_message (message : string)
| answer_comment (view : CommentView)
| answer_likes (likes : nat) (isLiked : bool)
| answer_moderated (view : CommentView) (action : string) (reason : option (list N))
| answer_next_error.

Section Rest.
Context `{Collaborators}.

(** `s.split(sep)` for a separator of one character. *)
Fixpoint split (sep : ascii) (s : string) : list string :=
  match s with
  | EmptyString => [""]
  | String c s' =>
      if Ascii.eqb c sep then "" :: split sep s'
      else match split sep s' with
           | piece :: pieces => String c piece :: pieces
           | [] => [String c ""]
           end
  end.

(** `authHeader && authHeader.split(' ')[1]` *)
Definition header_token (authHeader : option string) : option string :=
  match authHeader with
  | None => None
  | Some "" => Some ""
  | Some header => split " " header !! 1
  end.

(** `authenticateToken`: on success the user document found is
    attached to the request. *)
Definition authenticateToken (authHeader : option string) : M (Next (string * User.t)) :=
  match or_null (header_token authHeader) with
  | None => ret (responded 401 "Access token required")
  | Some token =>
      try_catch
        (match jwt_verify token with
         | None => throw
         | Some decoded =>
             let! found :=
               match decoded with
               | Some id => findById users id
               | None => round_trip ;;; ret None
               end in
             match found, decoded with
             | Some found, Some id => ret (next (id, found))
             | _, _ => ret (responded 401 "User not found")
             end
         end)
        (ret (responded 403 "Invalid token"))
  end.

(** `optionalAuth`: always calls `next()`; the result is `req.user`. *)
Definition optionalAuth (authHeader : option string) : M (option (string * User.t)) :=
  match or_null (header_token authHeader) with
  | None => ret None
  | Some token =>
      try_catch
        (match jwt_verify token with
         | None => throw
         | Some decoded =>
             let! found :=
               match decoded with
               | Some id => findById users id
               | None => round_trip ;;; ret None
               end in
             match found, decoded with
             | Some found, Some id => ret (Some (id, found))
             | _, _ => ret None
             end
         end)
        (ret None)
  end.

(** `requireRole(roles)` *)
Definition requireRole (roles : list Role.t) (user : option Requester) : Next unit :=
  match user with
  | None => responded 401 "Authentication required"
  | Some user =>
      if bool_decide (role user ∈ roles) then next tt
      else responded 403 "Insufficient permissions"
  end.

(** `requireOwnership(resourceModel)`: the resource found is attached
    to the request. *)
Definition requireOwnership {T} (coll : World → gmap string T) (author : T → string)
    (user : Requester) (resourceId : string) : M (Next T) :=
  try_catch
    (let! resource := findById coll resourceId in
     match resource with
     | None => ret (responded 404 "Resource not found")
     | Some resource =>
         if negb (String.eqb (author resource) (requester_id user))
            && negb (bool_decide (role user = Role.admin))
         then ret (responded 403 "Access denied")
         else ret (next resource)
     end)
    (ret next_thrown).

(** `validateCommentUpdate` *)
Definition validateCommentUpdate (content : list N) : option string :=
  if (length (trim content) =? 0)%nat
  then Some "content is not allowed to be empty"
  else if (1000 <? length (trim content))%nat
  then Some "Comment cannot exceed 1000 characters"
  else None.

(** `validateCommentModeration`; a reason is optional, but an empty
    one is no valid string. *)
Definition validateCommentModeration (action : string) (reason : option (list N))
    : option string :=
  if negb (bool_decide (action ∈ ["approve"; "reject"; "delete"; "flag"]))
  then Some "Action must be approve, reject, delete, or flag"
  else match reason with
       | None => None
       | Some reason =>
           if (length (trim reason) =? 0)%nat
           then Some "reason is not allowed to be empty"
           else if (500 <? length (trim reason))%nat
           then Some "Reason cannot exceed 500 characters"
           else None
       end.

(** `comment.remove()` *)
Definition remove_comment (id : string) : M unit :=
  round_trip ;;; modify (set_comments (delete id)).

(** `router.put('/:id', authenticateToken, requireOwnership(Comment), ...)`
    from `requireOwnership` on. *)
Definition update_comment_route (user : Requester) (id : string) (content : list N)
    : M Answer :=
  let! owned := requireOwnership comments Comment.author user id in
  match owned with
  | responded status error => ret (answer_error status error)
  | next_thrown => ret answer_next_error
  | next resource =>
      try_catch
        (match validateCommentUpdate content with
         | Some error => ret (answer_error 400 error)
         | None =>
             let c := Comment.edit (trim content) resource in
             save_comment id c ;;;
             let! view := populate id c in
             ret (answer_comment view)
         end)
        (ret answer_next_error)
  end.

(** `router.delete('/:id', authenticateToken, ...)` *)
Definition delete_comment_route (user : Requester) (id : string) : M Answer :=
  try_catch
    (let! found := findById comments id in
     match found with
     | None => ret (answer_error 404 "Comment not found")
     | Some c =>
         if negb (String.eqb (Comment.author c) (requester_id user))
            && negb (bool_decide (role user = Role.admin))
         then ret (answer_error 403 "Access denied")
         else
           remove_comment id ;;;
           ret (answer_message "Comment deleted successfully")
     end)
    (ret answer_next_error).

(** `router.post('/:id/like', authenticateToken, ...)` of the comments *)
Definition like_comment_route (user : Requester) (id : string) : M Answer :=
  try_catch
    (let! found := findById comments id in
     match found with
     | None => ret (answer_error 404 "Comment not found")
     | Some c =>
         let likeIndex := indexOf (Comment.likes c) (requester_id user) in
         let! likes :=
           if (likeIndex >? -1)%Z then ret (splice (Comment.likes c) likeIndex)
           else push (Comment.likes c) (requester_id user) in
         save_comment id (Comment.set_likes likes c) ;;;
         ret (answer_likes (length likes) (likeIndex =? -1)%Z)
     end)
    (ret answer_next_error).

(** `router.post('/:id/like', authenticateToken, ...)` of the posts *)
Definition like_post_route (user : Requester) (id : string) : M Answer :=
  try_catch
    (let! found := findById posts id in
     match found with
     | None => ret (answer_error 404 "Post not found")
     | Some post =>
         let likeIndex := indexOf (Post.likes post) (requester_id user) in
         let! likes :=
           if (likeIndex >? -1)%Z then ret (splice (Post.likes post) likeIndex)
           else push (Post.likes post) (requester_id user) in
         save_post id (Post.set_likes likes post) ;;;
         ret (answer_likes (length likes) (likeIndex =? -1)%Z)
     end)
    (ret answer_next_error).

Definition rejected_body : list N :=
  (λ a, N.of_nat (nat_of_ascii a)) <$> list_ascii_of_string "[Comment rejected by moderator]".

(** `router.post('/:id/moderate', authenticateToken,
    requireRole(['admin', 'moderator']), ...)` from `requireRole` on. *)
Definition moderate_comment_route (user : option Requester) (id : string)
    (action : string) (reason : option (list N)) : M Answer :=
  match requireRole [Role.admin; Role.moderator] user with
  | responded status error => ret (answer_error status error)
  | next_thrown => ret answer_next_error
  | next _ =>
      try_catch
        (match validateCommentModeration action reason with
         | Some error => ret (answer_error 400 error)
         | None =>
             let! found := findById comments id in
             match found with
             | None => ret (answer_error 404 "Comment not found")
             | Some c =>
                 let finish (c : Comment.t) : M Answer :=
                   save_comment id c ;;;
                   let! view := populate id c in
                   ret (answer_moderated view action reason) in
                 if String.eqb action "approve" then finish c
                 else if String.eqb action "reject" then
                   finish (Comment.mk rejected_body (Comment.author c) (Comment.post c)
                             (Comment.parentComment c) (Comment.likes c)
                             (Comment.isEdited c))
                 else if String.eqb action "delete" then
                   remove_comment id ;;;
                   ret (answer_message "Comment deleted successfully")
                 else if String.eqb action "flag" then finish c
                 else ret (answer_error 400 "Invalid action")
             end
         end)
        (ret answer_next_error)
  end.

End Rest.

(** ** The error handler of the REST side *)

Module AppError.
(** An error as the handler reads it: `code` is the store's error
    code where there is one. *)
Record t := mk {
  name : string;
  message : string;
  statusCode : option nat;
  code : option N;
  stack : string
}.
End AppError.

(** `createError(message, statusCode)`, given the stack of the call. *)
Definition createError (message : string) (statusCode : nat) (stack : string) : AppError.t :=
  AppError.mk "Error" message (Some statusCode) None stack.

(** `errorHandler`: the status, the message and, in development, the
    stack of the answer. *)
Definition errorHandler (development : bool) (error : AppError.t)
    : nat * string * option string :=
  let answer := (default 500 (AppError.statusCode error), AppError.message error) in
  let answer :=
    if String.eqb (AppError.name error) "ValidationError"
    then (400, "Validation Error") else answer in
  let answer :=
    if String.eqb (AppError.name error) "MongoError"
       && bool_decide (AppError.code error = Some 11000%N)
    then (400, "Duplicate field value") else answer in
  let answer :=
    if String.eqb (AppError.name error) "JsonWebTokenError"
    then (401, "Invalid token") else answer in
  let answer :=
    if String.eqb (AppError.name error) "TokenExpiredError"
    then (401, "Token expired") else answer in
  let answer :=
    if String.eqb (AppError.name error) "CastError"
    then (400, "Invalid ID format") else answer in
  (answer.1,
   if String.eqb answer.2 "" then "Internal Server Error" else answer.2,
   if development then Some (AppError.stack error) else None).

(** ** The Post schema's hook before a save *)

Record PostDoc := {
  doc_content : list N;
  doc_readTime : nat;
  doc_status : Status;
  doc_publishedAt : option nat
}.

(** `content.split(/\s+/)`: the pieces between the maximal runs of
    white space, an empty piece before a leading run and after a
    trailing one. *)
Fixpoint split_white (s : list N) : list (list N) :=
  match s with
  | [] => [[]]
  | c :: s' =>
      if is_white_space c then
        match s' with
        | [] => [[]; []]
        | c' :: _ => if is_white_space c' then split_white s' else [] :: split_white s'
        end
      else
        match split_white s' with
        | piece :: pieces => (c :: piece) :: pieces
        | [] => [[c]]
        end
  end.

(** `Math.ceil(a / b)` on counts *)
Definition ceil_div (a b : nat) : nat := (a + b - 1) / b.

(** `postSchema.pre('save', ...)`, told which paths are modified and
    what time it is. *)
Definition pre_save (content_modified status_modified : bool) (now : nat) (p : PostDoc)
    : PostDoc :=
  let readTime :=
    if content_modified
    then let wordsPerMinute := 200 in
         let wordCount := length (split_white (doc_content p)) in
         ceil_div wordCount wordsPerMinute
    else doc_readTime p in
  let publishedAt :=
    if status_modified then
      match doc_status p, doc_publishedAt p with
      | published, None => Some now
      | _, _ => doc_publishedAt p
      end
    else doc_publishedAt p in
  {| doc_content := doc_content p; doc_readTime := readTime;
     doc_status := doc_status p; doc_publishedAt := publishedAt |}.

(** ** The client's socket service (`WebSocketService`) *)

(** What a listener is handed as `data`. *)
Inductive Data (A : Type) :=
| undefined
| value (a : A)
| array (args : list A).
Arguments undefined {A}.
Arguments value {A} a.
Arguments array {A} args.

(** What the service publishes: a `WebSocketEvent` on `events$`, a
    `WebSocketMessage` with the time on `messages$`. *)
Inductive Published (A : Type) :=
| on_events (event : string) (data : Data A)
| on_messages (type : string) (data : Data A) (timestamp : nat).
Arguments on_events {A} event data.
Arguments on_messages {A} type data timestamp.

(** The events `setupSocketListeners` gives a listener of their own. *)
Definition custom_events : list string :=
  ["new-comment"; "comment-updated"; "comment-deleted"; "post-liked"; "comment-liked";
   "user-typing"; "user-online"; "user-offline"; "notification"].

Definition handleEvent {A} (now : nat) (event : string) (data : Data A) : list (Published A) :=
  [on_events event data; on_messages event data now].

Definition handleGenericEvent {A} (now : nat) (eventName : string) (args : list A)
    : list (Published A) :=
  if String.prefix "connect" eventName
     || String.prefix "disconnect" eventName
     || String.prefix "reconnect" eventName
     || String.eqb eventName "error"
  then []
  else handleEvent now eventName
         match args with
         | [a] => value a
         | _ => array args
         end.

(** An event arriving from the server: the `onAny` listener runs, and
    the event's own listener if it has one; each reads the clock. *)
Definition receive {A} (now_any now_own : nat) (eventName : string) (args : list A)
    : list (Published A) :=
  handleGenericEvent now_any eventName args
  ++ (if bool_decide (eventName ∈ custom_events)
      then handleEvent now_own eventName
             match args with
             | a :: _ => value a
             | [] => undefined
             end
      else []).

(** The name under which the server emits an event. *)
Definition event_name (ev : ServerEvent) : string :=
  match ev with
  | comment_added _ _ => "comment-added"
  | comment_updated _ _ => "comment-updated"
  | comment_deleted _ _ => "comment-deleted"
  | post_likes_updated _ _ _ => "post-likes-updated"
  | comment_likes_updated _ _ _ _ => "comment-likes-updated"
  | user_typing _ _ _ => "user-typing"
  | user_stopped_typing _ _ => "user-stopped-typing"
  | user_status _ _ _ => "user-status"
  | private_message _ _ _ _ _ => "private-message"
  | comment_error _ => "comment-error"
  | post_error _ => "post-error"
  | message_error _ => "message-error"
  end.

(** How often an event is published on `events$`. *)
Definition is_on_events {A} (event : string) (p : Published A) : bool :=
  match p with
  | on_events e _ => String.eqb e event
  | on_messages _ _ _ => false
  end.

Definition times_on_events {A} (event : string) (ps : list (Published A)) : nat :=
  length (filter (λ p, is_on_events event p = true) ps).

(** ** Vocabulary of the further properties *)

Definition is_scoped_error (ev : ServerEvent) : bool :=
  match ev with
  | comment_error _ | post_error _ | message_error _ => true
  | _ => false
  end.

(** The events whose handler writes to the posts, to the comments, to
    the registry of sockets. *)
Definition writes_posts (ev : ClientEvent) : bool :=
  match ev with
  | post_like _ _ => true
  | _ => false
  end.

Definition writes_comments (ev : ClientEvent) : bool :=
  match ev with
  | new_comment _ _ _ | update_comment _ _ _ | delete_comment _ _ | comment_like _ _ _ => true
  | _ => false
  end.

Definition writes_registry (ev : ClientEvent) : bool :=
  match ev with
  | join_post _ | leave_post _ | disconnect
  | without_payload Name.join_post | without_payload Name.leave_post => true
  | _ => false
  end.

(** The events whose handler reads its payload outside any `try`, sent
    without one. *)
Definition escapes (ev : ClientEvent) : bool :=
  match ev with
  | without_payload Name.typing_start | without_payload Name.typing_stop => true
  | _ => false
  end.

(** The stores and the registry as an event may leave them. *)
Definition framed (ev : ClientEvent) (w w' : World) : Prop :=
  users w' = users w
  ∧ (writes_posts ev = false → posts w' = posts w)
  ∧ (writes_comments ev = false → comments w' = comments w)
  ∧ (writes_registry ev = false → sockets w' = sockets w).

(** The registry as an event from socket [sid] may leave it: the other
    sockets as they were, and the sender, unless it disconnects, still
    registered under the identity it had. *)
Definition registry_kept (sid : nat) (ev : ClientEvent) (w w' : World) : Prop :=
  (∀ sid', sid' ≠ sid → sockets w' !! sid' = sockets w !! sid')
  ∧ (ev ≠ disconnect →
     ∀ s, sockets w !! sid = Some s →
          ∃ s', sockets w' !! sid = Some s'
                ∧ userId s' = userId s ∧ username s' = username s).

(** A scoped error goes to no one but socket [sid]. *)
Definition error_only_to (sid : nat) (d : Delivery) : Prop :=
  is_scoped_error d.2 = true → d.1 = sid.

(** Socket [sid] is registered and in [room]. *)
Definition member (w : World) (sid : nat) (room : string) : Prop :=
  ∃ s, sockets w !! sid = Some s ∧ room ∈ rooms s.

(** The REST like route of an entity. *)
Definition like_route `{Collaborators} (e : Entity) (user : Requester) : M Answer :=
  match e with
  | a_post id => like_post_route user id
  | a_comment id => like_comment_route user id
  end.

(** A save of the entity passes the validators of the paths the like
    routes leave untouched. *)
Definition saveable (w : World) (e : Entity) : Prop :=
  match e with
  | a_post _ => True
  | a_comment id => ∀ c, comments w !! id = Some c → content_in_bounds c = true
  end.

(** The requester may change the comment: its author, or an admin. *)
Definition may_change (user : Requester) (c : Comment.t) : Prop :=
  Comment.author c = requester_id user ∨ role user = Role.admin.

(** A string without a space. *)
Definition spaceless (s : string) : bool :=
  forallb (λ c, negb (Ascii.eqb c " ")) (list_ascii_of_string s).

(** A computation all of whose runs relate the world before to the
    world after by [I] and emit only deliveries in [O]. *)
Definition always {A} (I : World → World → Prop) (O : Delivery → Prop) (m : M A) : Prop :=
  ∀ w, I w (reached (m w)) ∧ Forall O (emitted (m w)).

(** A computation whose runs from a world in [P] end in a world in
    [P] and emit only deliveries in [O]. *)
Definition holds {A} (P : World → Prop) (O : Delivery → Prop) (m : M A) : Prop :=
  ∀ w, P w → P (reached (m w)) ∧ Forall O (emitted (m w)).

(** A computation none of whose runs throws. *)
Definition safe {A} (m : M A) : Prop := ∀ w, result (m w) ≠ Thrown.

(** * Properties *)

Section Properties.
Context `{Collaborators}.

(** ** Who an emission reaches *)

Lemma elem_of_addressed ev (ps : list (nat * Socket)) sid e :
  (sid, e) ∈ addressed ev ps ↔ e = ev ∧ ∃ s, (sid, s) ∈ ps.
Proof.
  unfold addressed. rewrite list_elem_of_fmap. split.
  - intros [[sid' s] [Heq Hin]]. simpl in Heq. inversion Heq; subst. eauto.
  - intros [-> [s Hin]]. exists (sid, s). auto.
Qed.

Lemma elem_of_room_emit (m : gmap nat Socket) room ev sid e :
  (sid, e) ∈ addressed ev (filter (in_room room) (map_to_list m))
  ↔ e = ev ∧ ∃ s, m !! sid = Some s ∧ room ∈ rooms s.
Proof.
  rewrite elem_of_addressed. split.
  - intros [-> [s Hin]]. apply list_elem_of_filter in Hin as [Hroom Hin].
    apply elem_of_map_to_list in Hin. eauto.
  - intros [-> (s & Hs & Hroom)]. split; [done|]. exists s.
    apply list_elem_of_filter. split; [done|]. by apply elem_of_map_to_list.
Qed.

Lemma elem_of_room_emit_others (m : gmap nat Socket) sender room ev sid e :
  (sid, e) ∈ addressed ev
    (filter (λ p, p.1 ≠ sender) (filter (in_room room) (map_to_list m)))
  ↔ e = ev ∧ sid ≠ sender ∧ ∃ s, m !! sid = Some s ∧ room ∈ rooms s.
Proof.
  rewrite elem_of_addressed. split.
  - intros [-> [s Hin]]. apply list_elem_of_filter in Hin as [Hne Hin].
    apply list_elem_of_filter in Hin as [Hroom Hin].
    apply elem_of_map_to_list in Hin. eauto.
  - intros [-> (Hne & s & Hs & Hroom)]. split; [done|]. exists s.
    apply list_elem_of_filter. split; [done|].
    apply list_elem_of_filter. split; [done|]. by apply elem_of_map_to_list.
Qed.

Lemma elem_of_broadcast_emit (m : gmap nat Socket) sender ev sid e :
  (sid, e) ∈ addressed ev (filter (λ p, p.1 ≠ sender) (map_to_list m))
  ↔ e = ev ∧ sid ≠ sender ∧ is_Some (m !! sid).
Proof.
  rewrite elem_of_addressed. split.
  - intros [-> [s Hin]]. apply list_elem_of_filter in Hin as [Hne Hin].
    apply elem_of_map_to_list in Hin. eauto.
  - intros [-> (Hne & s & Hs)]. split; [done|]. exists s.
    apply list_elem_of_filter. split; [done|]. by apply elem_of_map_to_list.
Qed.

(** No socket is handed the same emission twice. *)
Lemma NoDup_addressed ev (ps : list (nat * Socket)) :
  NoDup ps.*1 → NoDup (addressed ev ps).
Proof.
  unfold addressed. induction ps as [|[sid s] ps IH]; simpl; intros Hnd.
  - constructor.
  - apply NoDup_cons in Hnd as [Hnin Hnd]. constructor; [|by apply IH].
    intros Hin. apply list_elem_of_fmap in Hin as [[sid' s'] [Heq Hin]].
    simpl in Heq. inversion Heq; subst. apply Hnin.
    apply list_elem_of_fmap. by exists (sid', s').
Qed.

(** ** Running a handler of a registered socket *)

Lemma bind_get {A} (k : World → M A) w : bind get k w = k w w.
Proof. unfold bind, get. simpl. by destruct (k w w) as [[? ?] ?]. Qed.

Lemma dispatch_unknown sid ev w :
  sockets w !! sid = None → dispatch sid ev w = (w, [], Returned tt).
Proof. intros Hs. unfold dispatch. rewrite bind_get, Hs. done. Qed.

Lemma NoDup_registry_ids (m : gmap nat Socket) : NoDup (map_to_list m).*1.
Proof. apply NoDup_fst_map_to_list. Qed.

Lemma NoDup_filter_ids (P : nat * Socket → Prop) `{!∀ p, Decision (P p)}
    (ps : list (nat * Socket)) :
  NoDup ps.*1 → NoDup (filter P ps).*1.
Proof.
  induction ps as [|p ps IH]; simpl; intros Hnd; [constructor|].
  apply NoDup_cons in Hnd as [Hnin Hnd]. rewrite filter_cons.
  destruct (decide (P p)); [|by apply IH]. simpl. constructor; [|by apply IH].
  intros Hin. apply Hnin. apply list_elem_of_fmap in Hin as [q [-> Hq]].
  apply list_elem_of_filter in Hq as [_ Hq]. apply list_elem_of_fmap. by exists q.
Qed.

(** ** Ephemeral signals *)

(** C7. A `typing-start` sent by socket [sid] about post [postId] hands
    `user-typing`, carrying the sender's userId and username and the
    typing type, to exactly the other sockets that are in the room of
    that post, each once, and never to the sender; the world is left
    as it was. *)
Theorem typing_start_reaches_other_members w sid socket postId type :
  sockets w !! sid = Some socket →
  let r := dispatch sid (typing_start postId type) w in
  reached r = w
  ∧ NoDup (emitted r)
  ∧ (∀ sid' ev, (sid', ev) ∈ emitted r ↔
       ev = user_typing (userId socket) (username socket) type
       ∧ sid' ≠ sid
       ∧ ∃ s', sockets w !! sid' = Some s' ∧ room_of postId ∈ rooms s')
  ∧ ∀ ev, (sid, ev) ∉ emitted r.
Proof.
  intros Hs r. subst r. unfold dispatch. rewrite bind_get, Hs.
  unfold on_typing_start, socket_to_emit, deliver, reached, emitted. simpl.
  split; [done|]. split.
  { apply NoDup_addressed. do 2 apply NoDup_filter_ids. apply NoDup_registry_ids. }
  split.
  - intros sid' ev. apply elem_of_room_emit_others.
  - intros ev Hin. apply elem_of_room_emit_others in Hin as (_ & Hne & _). done.
Qed.

(** C8, as the code has it. A `user-online` sent by socket [sid] hands
    `user-status` with status online to every connected socket other
    than the sender, whatever rooms it is in, each once; the sender
    itself is not handed the event. *)
Theorem user_online_reaches_all_others w sid socket :
  sockets w !! sid = Some socket →
  let r := dispatch sid user_online w in
  reached r = w
  ∧ NoDup (emitted r)
  ∧ (∀ sid' ev, (sid', ev) ∈ emitted r ↔
       ev = user_status (userId socket) (username socket) online
       ∧ sid' ≠ sid
       ∧ is_Some (sockets w !! sid'))
  ∧ ∀ ev, (sid, ev) ∉ emitted r.
Proof.
  intros Hs r. subst r. unfold dispatch. rewrite bind_get, Hs.
  unfold on_user_online, socket_broadcast_emit, deliver, reached, emitted. simpl.
  split; [done|]. split.
  { apply NoDup_addressed. apply NoDup_filter_ids. apply NoDup_registry_ids. }
  split.
  - intros sid' ev. apply elem_of_broadcast_emit.
  - intros ev Hin. apply elem_of_broadcast_emit in Hin as (_ & Hne & _). done.
Qed.

(** ** Deleting a comment *)

Lemma findByIdAndDelete_run commentId w :
  findByIdAndDelete commentId w =
    if is_object_id commentId then
      match outages w with
      | true :: _ => (set_outages (tail (outages w)) w, [], Thrown)
      | _ => (set_comments (delete commentId) (set_outages (tail (outages w)) w), [],
              Returned (comments w !! commentId))
      end
    else (w, [], Thrown).
Proof.
  unfold findByIdAndDelete, bind, cast_id, round_trip, get, modify, ret, throw.
  destruct (is_object_id commentId); simpl; [|done].
  by destruct (outages w) as [|[] ?].
Qed.


(** ** The handshake *)

Lemma findById_run {T} (coll : World → gmap string T) id w :
  findById coll id w =
    if is_object_id id then
      (set_outages (tail (outages w)) w, [],
       match outages w with
       | true :: _ => Thrown
       | _ => Returned (coll (set_outages (tail (outages w)) w) !! id)
       end)
    else (w, [], Thrown).
Proof.
  unfold findById, bind, cast_id, round_trip, get, ret, throw.
  destruct (is_object_id id); simpl; [|done].
  by destruct (outages w) as [|[] ?].
Qed.

Lemma authenticate_registry token w :
  sockets (reached (authenticate token w)) = sockets w
  ∧ users (reached (authenticate token w)) = users w
  ∧ emitted (authenticate token w) = [].
Proof.
  unfold authenticate, try_catch, bind, round_trip, ret, throw, reached, emitted.
  destruct (or_null token) as [t|]; simpl; [|done].
  destruct (jwt_verify t) as [[id|]|]; simpl; [| |done].
  - rewrite findById_run. destruct (is_object_id id); simpl; [|done].
    destruct (outages w) as [|[] ?]; simpl; try done.
    all: by destruct (users w !! id).
  - by destruct (outages w) as [|[] ?].
Qed.


(** ** Creating a comment over the live channel *)

(** Every way `new-comment` can end: with the scoped error and nothing
    stored; with the scoped error although the comment was stored (the
    round trip of `populate` rejected); or with the comment stored and
    `comment-added` sent to the room. *)
Lemma on_new_comment_run sid socket postId content parentComment w :
  let r := on_new_comment sid socket postId content parentComment w in
  let c := drafted socket postId content parentComment in
  let id := new_object_id (minted w) in
  result r = Returned tt
  ∧ sockets (reached r) = sockets w
  ∧ users (reached r) = users w
  ∧ posts (reached r) = posts w
  ∧ ((emitted r = failed_to_add sid ∧ comments (reached r) = comments w)
     ∨ (emitted r = failed_to_add sid
        ∧ valid_comment c = true ∧ comments w !! id = None
        ∧ comments (reached r) = <[id := c]> (comments w)
        ∧ outages w !! 1 = Some true)
     ∨ (emitted r
          = addressed
              (comment_added {| view_id := id; view_doc := c;
                                view_author := users w !! userId socket |} postId)
              (filter (in_room (room_of postId)) (map_to_list (sockets w)))
        ∧ valid_comment c = true ∧ comments w !! id = None
        ∧ comments (reached r) = <[id := c]> (comments w)
        ∧ outages w !! 1 ≠ Some true)).
Proof.
  intros r c id. subst r.
  unfold on_new_comment, new_Comment, save_new_comment, populate, try_catch, bind,
    round_trip, get, modify, ret, throw, io_to_emit, socket_emit, deliver,
    result, reached, emitted, failed_to_add.
  simpl. fold (drafted socket postId content parentComment). fold c. fold id.
  destruct (valid_comment c); simpl; [|by auto 10].
  destruct (outages w) as [|[] rest]; simpl.
  - destruct (comments w !! id); simpl; [by auto 10|].
    do 4 (split; [done|]). right. right. by repeat split.
  - by auto 10.
  - destruct (comments w !! id); simpl; [by auto 10|].
    destruct rest as [|[] rest']; simpl.
    + do 4 (split; [done|]). right. right. by repeat split.
    + do 4 (split; [done|]). right. left. by repeat split.
    + do 4 (split; [done|]). right. right. by repeat split.
Qed.

(** C5, as the code has it. When `new-comment` about post [postId]
    stores its comment (under the id just minted, which was free) and
    the round trip of `populate` that follows the save succeeds,
    `comment-added`, carrying that comment with the sender as author
    and the postId, is handed to exactly the sockets that are in the
    room of the post at that moment, each once: to the sender if it is
    in the room, and to no socket outside the room. *)
Theorem comment_added_reaches_the_room w sid socket postId content parentComment :
  sockets w !! sid = Some socket →
  let r := dispatch sid (new_comment postId content parentComment) w in
  let id := new_object_id (minted w) in
  let c := drafted socket postId content parentComment in
  comments w !! id = None →
  comments (reached r) !! id = Some c →
  outages w !! 1 ≠ Some true →
  let view := {| view_id := id; view_doc := c; view_author := users w !! userId socket |} in
  Comment.post c = postId
  ∧ Comment.author c = userId socket
  ∧ sockets (reached r) = sockets w
  ∧ NoDup (emitted r)
  ∧ (∀ sid' ev, (sid', ev) ∈ emitted r ↔
       ev = comment_added view postId
       ∧ ∃ s', sockets w !! sid' = Some s' ∧ room_of postId ∈ rooms s')
  ∧ (room_of postId ∈ rooms socket → (sid, comment_added view postId) ∈ emitted r)
  ∧ (∀ sid' s' ev, sockets w !! sid' = Some s' → room_of postId ∉ rooms s' →
       (sid', ev) ∉ emitted r).
Proof.
  intros Hs r id c Hfree Hstored Hpopulate view. subst r.
  unfold dispatch in *. rewrite bind_get, Hs in *.
  destruct (on_new_comment_run sid socket postId content parentComment w)
    as (_ & Hreg & _ & _ & Hcases).
  fold id c in Hcases.
  destruct Hcases as [[_ Hsame]|[(_ & _ & _ & _ & Hfailed)|(Hout & _)]].
  { rewrite Hsame in Hstored. congruence. }
  { done. }
  split; [done|]. split; [done|]. split; [done|]. rewrite Hout.
  split; [apply NoDup_addressed, NoDup_filter_ids, NoDup_registry_ids|].
  split; [intros sid' ev; apply elem_of_room_emit|]. split.
  - intros Hroom. apply elem_of_room_emit. eauto.
  - intros sid' s' ev Hs' Hout' Hin. apply elem_of_room_emit in Hin
      as (_ & s'' & Hs'' & Hroom). congruence.
Qed.

(** C6, as the code has it. A `new-comment` whose content is, once
    trimmed, empty or longer than 1000 units hands `comment-error` to
    the sender and to no one else; no comment is stored and nothing is
    sent to the room. *)
Theorem out_of_bounds_comment_refused w sid socket postId content parentComment :
  sockets w !! sid = Some socket →
  length (trim content) = 0 ∨ 1000 < length (trim content) →
  let r := dispatch sid (new_comment postId content parentComment) w in
  emitted r = [(sid, comment_error "Failed to add comment")]
  ∧ comments (reached r) = comments w
  ∧ posts (reached r) = posts w
  ∧ sockets (reached r) = sockets w.
Proof.
  intros Hs Hbounds r. subst r. unfold dispatch. rewrite bind_get, Hs.
  assert (valid_comment (drafted socket postId content parentComment) = false) as Hbad.
  { unfold valid_comment, drafted. simpl. destruct Hbounds as [Hempty|Hlong].
    - rewrite Hempty. done.
    - apply Nat.leb_gt in Hlong. rewrite Hlong.
      by destruct (length (trim content) =? 0)%nat. }
  destruct (on_new_comment_run sid socket postId content parentComment w)
    as (_ & Hreg & _ & Hposts & Hcases).
  destruct Hcases as [[Hout Hsame]|[(_ & Hvalid & _)|(_ & Hvalid & _)]];
    [done|congruence|congruence].
Qed.

(** ** What the two ways of creating a comment check *)

(** The live handler never looks at the posts: whatever the post store
    holds, it emits the same events and stores the same comments. *)
Lemma on_new_comment_ignores_posts sid socket postId content parentComment f w :
  emitted (on_new_comment sid socket postId content parentComment (set_posts f w))
    = emitted (on_new_comment sid socket postId content parentComment w)
  ∧ comments (reached (on_new_comment sid socket postId content parentComment (set_posts f w)))
    = comments (reached (on_new_comment sid socket postId content parentComment w)).
Proof.
  unfold on_new_comment, new_Comment, save_new_comment, populate, try_catch, bind,
    round_trip, get, modify, ret, throw, io_to_emit, socket_emit, deliver,
    reached, emitted.
  simpl. fold (drafted socket postId content parentComment).
  destruct (valid_comment _); simpl; [|done].
  destruct (outages w) as [|[] rest]; simpl; [|done|].
  - by destruct (comments w !! _).
  - destruct (comments w !! _); simpl; [done|].
    by destruct rest as [|[] rest'].
Qed.

(** The REST route stores nothing and answers with no comment when the
    post is missing or not published, or when the parent comment named
    is missing. *)
Lemma create_comment_route_checks user_id body w :
  (posts w !! body_post body = None
   ∨ (∃ p, posts w !! body_post body = Some p ∧ Post.status p ≠ published)
   ∨ (∃ parent, or_null (body_parentComment body) = Some parent
                ∧ comments w !! parent = None)) →
  let r := create_comment_route user_id body w in
  comments (reached r) = comments w
  ∧ ∀ status view, result r ≠ Returned (json_comment status view).
Proof.
  intros Hmissing r. subst r.
  unfold create_comment_route, new_Comment, save_new_comment, populate, findById,
    cast_id, try_catch, bind, round_trip, get, modify, ret, throw, result, reached.
  destruct (validateComment body); [done|].
  destruct (is_object_id (body_post body)); simpl; [|done].
  destruct (outages w) as [|[] rest] eqn:Hout; simpl; try done.
  all: destruct (posts w !! body_post body) as [[a st l]|] eqn:Hpost; simpl; [|done].
  all: destruct st; simpl; try done.
  all: destruct Hmissing as [?|[(p & Hp & Hst)|(parent & Hparent & Hnone)]];
    [done|by injection Hp as <-|].
  all: rewrite Hparent; simpl.
  all: destruct (is_object_id parent); simpl; [|done].
  - rewrite Hnone. done.
  - destruct rest as [|[] rest']; simpl; try done. all: rewrite Hnone; done.
Qed.

(** ** Like lists *)

Lemma includes_spec l x : includes l x = true ↔ x ∈ l.
Proof. unfold includes. apply bool_decide_eq_true. Qed.

Lemma indexOf_absent l x : x ∉ l → indexOf l x = (-1)%Z.
Proof.
  induction l as [|y l IH]; simpl; intros Hnin; [done|].
  apply not_elem_of_cons in Hnin as [Hne Hnin].
  destruct (decide (x = y)); [done|]. rewrite (IH Hnin). done.
Qed.

Lemma indexOf_present l x :
  x ∈ l → (0 ≤ indexOf l x)%Z ∧ l !! Z.to_nat (indexOf l x) = Some x.
Proof.
  induction l as [|y l IH]; simpl; intros Hin; [by apply elem_of_nil in Hin|].
  destruct (decide (x = y)) as [->|Hne]; [done|].
  apply elem_of_cons in Hin as [?|Hin]; [done|].
  destruct (IH Hin) as [Hpos Hat].
  destruct (Z.eqb_spec (indexOf l x) (-1)); [lia|].
  split; [lia|]. rewrite Z2Nat.inj_succ by lia. done.
Qed.

Lemma indexOf_snoc l x : x ∉ l → indexOf (l ++ [x]) x = Z.of_nat (length l).
Proof.
  induction l as [|y l IH]; simpl; intros Hnin.
  - by rewrite decide_True.
  - apply not_elem_of_cons in Hnin as [Hne Hnin].
    rewrite decide_False by done. rewrite (IH Hnin).
    destruct (Z.eqb_spec (Z.of_nat (length l)) (-1)); lia.
Qed.

Lemma acted_like_present l x : x ∈ l → acted l x like = l.
Proof. intros Hin. simpl. apply includes_spec in Hin. by rewrite Hin. Qed.

Lemma acted_like_absent l x : x ∉ l → acted l x like = l ++ [toHexString x].
Proof.
  intros Hnin. simpl. destruct (includes l x) eqn:Hinc; [|done].
  by apply includes_spec in Hinc.
Qed.

Lemma acted_unlike_absent l x : x ∉ l → acted l x unlike = l.
Proof. intros Hnin. simpl. by rewrite (indexOf_absent l x Hnin). Qed.

Lemma acted_unlike_present l x :
  x ∈ l → ∃ i, l !! i = Some x ∧ acted l x unlike = delete i l.
Proof.
  intros Hin. destruct (indexOf_present l x Hin) as [Hpos Hat].
  exists (Z.to_nat (indexOf l x)). split; [done|]. simpl. unfold splice.
  destruct (Z.gtb_spec (indexOf l x) (-1)); [done|lia].
Qed.

(** An action by an identity spelled as it prints keeps a like list
    free of repetitions. *)
Lemma acted_NoDup l x action : toHexString x = x → NoDup l → NoDup (acted l x action).
Proof.
  intros Hx Hnd. destruct action.
  - destruct (decide (x ∈ l)) as [Hin|Hnin].
    + by rewrite acted_like_present.
    + rewrite acted_like_absent, Hx by done. apply NoDup_app.
      split; [done|]. split; [|apply NoDup_singleton].
      intros y Hy Hyx. apply list_elem_of_singleton in Hyx as ->. done.
  - destruct (decide (x ∈ l)) as [Hin|Hnin].
    + destruct (acted_unlike_present l x Hin) as (i & _ & ->).
      eapply sublist_NoDup; [done|apply sublist_delete].
    + by rewrite acted_unlike_absent.
Qed.

Lemma acted_like_unlike l x :
  toHexString x = x → x ∉ l → acted (acted l x like) x unlike = l.
Proof.
  intros Hx Hnin. rewrite acted_like_absent, Hx by done. simpl. unfold splice.
  rewrite indexOf_snoc by done.
  destruct (Z.gtb_spec (Z.of_nat (length l)) (-1)); [|lia].
  rewrite Nat2Z.id, delete_middle. apply app_nil_r.
Qed.

Lemma acted_unlike_like l x :
  toHexString x = x → NoDup l → x ∈ l →
  (x ∉ acted l x unlike)
  ∧ (acted (acted l x unlike) x like ≡ₚ l)
  ∧ length (acted (acted l x unlike) x like) = length l.
Proof.
  intros Hx Hnd Hin. destruct (acted_unlike_present l x Hin) as (i & Hat & ->).
  pose proof (delete_Permutation l i x Hat) as Hperm.
  assert (x ∉ delete i l) as Hgone.
  { rewrite Hperm in Hnd. by apply NoDup_cons in Hnd as [? _]. }
  split; [done|]. rewrite acted_like_absent, Hx by done.
  assert (delete i l ++ [x] ≡ₚ l) as Hback.
  { rewrite Hperm at 2. symmetry. apply Permutation_cons_append. }
  split; [done|]. by rewrite Hback.
Qed.

(** ** Running the like handlers *)

#[local] Arguments acted : simpl never.
#[local] Arguments content_in_bounds : simpl never.

Lemma content_in_bounds_set_likes l c :
  content_in_bounds (Comment.set_likes l c) = content_in_bounds c.
Proof. done. Qed.

Lemma apply_action_run likes u action w :
  apply_action likes u action w =
    (w, [],
     match action with
     | like =>
         if includes likes u then Returned (acted likes u like)
         else if is_object_id u then Returned (acted likes u like) else Thrown
     | unlike => Returned (acted likes u unlike)
     end).
Proof.
  unfold apply_action, acted, push, ret, throw. destruct action.
  - destruct (includes likes u); simpl; [done|]. by destruct (is_object_id u).
  - by destruct (indexOf likes u >? -1)%Z.
Qed.

(** Every way `post-like` can end: the scoped error with the posts as
    they were; nothing at all, when the lookup answered that there is
    no such post; or the new like list saved and its length sent to
    the room. *)
Lemma on_post_like_run sid socket postId action w :
  let r := on_post_like sid socket postId action w in
  let u := userId socket in
  result r = Returned tt
  ∧ sockets (reached r) = sockets w
  ∧ comments (reached r) = comments w
  ∧ ((emitted r = [(sid, post_error "Failed to update likes")]
      ∧ posts (reached r) = posts w
      ∧ (is_object_id postId = false ∨ outages w !! 0 = Some true
         ∨ (is_Some (posts w !! postId)
            ∧ (is_object_id u = false ∨ outages w !! 1 = Some true))))
     ∨ (emitted r = [] ∧ posts (reached r) = posts w
        ∧ posts w !! postId = None
        ∧ is_object_id postId = true ∧ outages w !! 0 ≠ Some true)
     ∨ (∃ post, posts w !! postId = Some post
        ∧ posts (reached r)
          = <[postId := Post.set_likes (acted (Post.likes post) u action) post]> (posts w)
        ∧ emitted r
          = addressed
              (post_likes_updated postId (length (acted (Post.likes post) u action)) action)
              (filter (in_room (room_of postId)) (map_to_list (sockets w)))
        ∧ outages (reached r) = tail (tail (outages w)))).
Proof.
  intros r u. subst r.
  remember (on_post_like sid socket postId action w) as r eqn:Hr.
  unfold on_post_like, try_catch in Hr. unfold bind at 1 in Hr.
  rewrite findById_run in Hr.
  destruct (is_object_id postId); simpl in Hr; [|subst r; by auto 10].
  destruct (outages w) as [|[] rest] eqn:Hout; simpl in Hr; [|subst r; by auto 10|].
  all: destruct (posts w !! postId) as [post|] eqn:Hpost; simpl in Hr;
    [|subst r; unfold result, reached, emitted; simpl; by auto 10].
  all: unfold bind at 1 in Hr; rewrite apply_action_run in Hr; fold u in Hr.
  all: unfold save_post, io_to_emit, deliver, round_trip, modify, socket_emit,
         bind in Hr; simpl in Hr.
  all: destruct action; simpl in Hr.
  all: try destruct (includes (Post.likes post) u) eqn:Hinc; simpl in Hr.
  all: try destruct (is_object_id u); simpl in Hr.
  all: try (destruct rest as [|[] rest']; simpl in Hr).
  all: subst r; unfold result, reached, emitted; simpl.
  all: first [ do 3 (split; [done|]); left; by eauto 10
             | do 3 (split; [done|]); right; right; exists post; by repeat split ].
Qed.

Lemma on_comment_like_run sid socket commentId postId action w :
  let r := on_comment_like sid socket commentId postId action w in
  let u := userId socket in
  result r = Returned tt
  ∧ sockets (reached r) = sockets w
  ∧ posts (reached r) = posts w
  ∧ ((emitted r = [(sid, comment_error "Failed to update comment likes")]
      ∧ comments (reached r) = comments w
      ∧ (is_object_id commentId = false ∨ outages w !! 0 = Some true
         ∨ (is_Some (comments w !! commentId)
            ∧ (is_object_id u = false ∨ outages w !! 1 = Some true
               ∨ ∃ c, comments w !! commentId = Some c ∧ content_in_bounds c = false))))
     ∨ (emitted r = [] ∧ comments (reached r) = comments w
        ∧ comments w !! commentId = None
        ∧ is_object_id commentId = true ∧ outages w !! 0 ≠ Some true)
     ∨ (∃ c, comments w !! commentId = Some c
        ∧ content_in_bounds c = true
        ∧ comments (reached r)
          = <[commentId := Comment.set_likes (acted (Comment.likes c) u action) c]>
              (comments w)
        ∧ emitted r
          = addressed
              (comment_likes_updated commentId postId
                 (length (acted (Comment.likes c) u action)) action)
              (filter (in_room (room_of postId)) (map_to_list (sockets w)))
        ∧ outages (reached r) = tail (tail (outages w)))).
Proof.
  intros r u. subst r.
  remember (on_comment_like sid socket commentId postId action w) as r eqn:Hr.
  unfold on_comment_like, try_catch in Hr. unfold bind at 1 in Hr.
  rewrite findById_run in Hr.
  destruct (is_object_id commentId); simpl in Hr; [|subst r; by auto 10].
  destruct (outages w) as [|[] rest] eqn:Hout; simpl in Hr; [|subst r; by auto 10|].
  all: destruct (comments w !! commentId) as [c|] eqn:Hc; simpl in Hr;
    [|subst r; unfold result, reached, emitted; simpl; by auto 10].
  all: unfold bind at 1 in Hr; rewrite apply_action_run in Hr; fold u in Hr.
  all: unfold save_comment, io_to_emit, deliver, round_trip, modify, socket_emit,
         bind in Hr; simpl in Hr.
  all: destruct action; simpl in Hr.
  all: try destruct (includes (Comment.likes c) u) eqn:Hinc; simpl in Hr.
  all: try destruct (is_object_id u); simpl in Hr.
  all: rewrite ?content_in_bounds_set_likes in Hr.
  all: try (destruct (content_in_bounds c) eqn:Hbounds; simpl in Hr).
  all: try (destruct rest as [|[] rest']; simpl in Hr).
  all: subst r; unfold result, reached, emitted; simpl.
  all: first [ do 3 (split; [done|]); left; by eauto 12
             | do 3 (split; [done|]); right; right; exists c; by repeat split ].
Qed.

(** ** Mutations that name a document the store does not hold *)

Lemma on_update_comment_missing sid commentId content postId w :
  comments w !! commentId = None →
  let r := on_update_comment sid commentId content postId w in
  result r = Returned tt
  ∧ sockets (reached r) = sockets w
  ∧ posts (reached r) = posts w
  ∧ comments (reached r) = comments w
  ∧ ((is_object_id commentId = true ∧ outages w !! 0 ≠ Some true ∧ emitted r = [])
     ∨ ((is_object_id commentId = false ∨ outages w !! 0 = Some true)
        ∧ emitted r = [(sid, comment_error "Failed to update comment")])).
Proof.
  intros Hnone r. subst r.
  remember (on_update_comment sid commentId content postId w) as r eqn:Hr.
  unfold on_update_comment, findByIdAndUpdate, try_catch, cast_id, round_trip, get,
    modify, ret, throw, socket_emit, deliver, bind in Hr.
  destruct (is_object_id commentId); simpl in Hr; [|subst r; by auto 10].
  destruct (outages w) as [|[] rest] eqn:Hout; simpl in Hr; rewrite ?Hnone in Hr;
    simpl in Hr; subst r; unfold result, reached, emitted; simpl.
  - do 4 (split; [done|]). left. by repeat split.
  - by auto 10.
  - do 4 (split; [done|]). left. by repeat split.
Qed.


(** ** Likes, for posts and comments alike *)

Lemma like_event_run w sid socket e postId action :
  sockets w !! sid = Some socket →
  let r := dispatch sid (like_event e postId action) w in
  let u := userId socket in
  sockets (reached r) = sockets w
  ∧ (saveable w e → saveable (reached r) e)
  ∧ ((emitted r = [(sid, scoped_error (like_event e postId action))]
      ∧ likes_of (reached r) e = likes_of w e
      ∧ (is_object_id (entity_id e) = false ∨ outages w !! 0 = Some true
         ∨ is_object_id u = false ∨ outages w !! 1 = Some true ∨ ¬ saveable w e))
     ∨ (emitted r = [] ∧ likes_of (reached r) e = likes_of w e ∧ likes_of w e = None)
     ∨ (∃ likes, likes_of w e = Some likes
        ∧ likes_of (reached r) e = Some (acted likes u action)
        ∧ emitted r
          = addressed (likes_updated e postId (length (acted likes u action)) action)
              (filter (in_room (like_room e postId)) (map_to_list (sockets w)))
        ∧ outages (reached r) = tail (tail (outages w)))).
Proof.
  intros Hs r u. subst r. unfold dispatch. destruct e as [id|id]; simpl.
  - rewrite bind_get, Hs.
    destruct (on_post_like_run sid socket id action w) as (_ & Hreg & _ & Hcases).
    split; [done|]. split; [done|].
    destruct Hcases as [(Hout & Hposts & Hwhy)|[(Hout & Hposts & Hnone & _)
                                               |(post & Hpost & Hposts & Hout & Htrips)]].
    + left. rewrite Hposts. split; [done|]. split; [done|]. tauto.
    + right. left. rewrite Hposts, Hnone. done.
    + right. right. exists (Post.likes post). rewrite Hposts, Hpost, lookup_insert_eq.
      done.
  - rewrite bind_get, Hs.
    destruct (on_comment_like_run sid socket id postId action w) as (_ & Hreg & _ & Hcases).
    split; [done|].
    destruct Hcases as [(Hout & Hcomments & Hwhy)|[(Hout & Hcomments & Hnone & _)
                                                  |(c & Hc & Hbounds & Hcomments & Hout
                                                    & Htrips)]].
    + split; [by rewrite Hcomments|].
      left. rewrite Hcomments. split; [done|]. split; [done|].
      destruct Hwhy as [?|[?|[_ [?|[?|(c & Hc & Hbad)]]]]]; try tauto.
      do 4 right. intros Hsave. specialize (Hsave c Hc). congruence.
    + split; [by rewrite Hcomments|].
      right. left. rewrite Hcomments, Hnone. done.
    + split.
      { intros _ c' Hc'. rewrite Hcomments, lookup_insert_eq in Hc'.
        injection Hc' as <-. by rewrite content_in_bounds_set_likes. }
      right. right. exists (Comment.likes c).
      rewrite Hcomments, Hc, lookup_insert_eq. done.
Qed.


(** C3, as the code has it. With the store answering, the ids well
    formed, the sender's userId spelled as ObjectIds print, and, for a
    comment, its stored body within the bounds the schema checks at
    every save: for an identity that is not in the like list, a like
    followed by an unlike puts the list back exactly as it was, and the
    second broadcast carries the original count; for an identity that
    is in a repetition-free like list, an unlike followed by a like
    puts back the same members (the identity now last) and the second
    broadcast carries the original count. *)
Theorem like_round_trip w sid socket e postId likes :
  sockets w !! sid = Some socket →
  likes_of w e = Some likes →
  outages w = [] →
  is_object_id (entity_id e) = true →
  is_object_id (userId socket) = true →
  toHexString (userId socket) = userId socket →
  saveable w e →
  let u := userId socket in
  let room := filter (in_room (like_room e postId)) (map_to_list (sockets w)) in
  (u ∉ likes →
   let r1 := dispatch sid (like_event e postId like) w in
   let r2 := dispatch sid (like_event e postId unlike) (reached r1) in
   likes_of (reached r1) e = Some (likes ++ [u])
   ∧ likes_of (reached r2) e = Some likes
   ∧ emitted r2 = addressed (likes_updated e postId (length likes) unlike) room)
  ∧ (u ∈ likes → NoDup likes →
     let r1 := dispatch sid (like_event e postId unlike) w in
     let r2 := dispatch sid (like_event e postId like) (reached r1) in
     ∃ likes1 likes2,
       likes_of (reached r1) e = Some likes1 ∧ (u ∉ likes1)
       ∧ likes_of (reached r2) e = Some likes2 ∧ (likes2 ≡ₚ likes)
       ∧ emitted r2 = addressed (likes_updated e postId (length likes) like) room).
Proof.
  intros Hs Hlikes Hup Hid Hu Hprint Hsave u room.
  assert (∀ action,
            let r := dispatch sid (like_event e postId action) w in
            sockets (reached r) = sockets w ∧ outages (reached r) = []
            ∧ saveable (reached r) e
            ∧ likes_of (reached r) e = Some (acted likes u action)) as Hfirst.
  { intros action r. subst r.
    destruct (like_event_run w sid socket e postId action Hs) as (Hreg & Hkeep & Hcases).
    fold u in Hcases. rewrite Hup in Hcases. simpl in Hcases.
    destruct Hcases as [(_ & _ & Hwhy)|[(_ & _ & Hnone)|(likes0 & Hl0 & Hnew & _ & Htrips)]].
    - unfold u in Hwhy. destruct Hwhy as [?|[?|[?|[?|?]]]]; congruence.
    - congruence.
    - assert (likes0 = likes) as -> by congruence. by auto. }
  assert (∀ action1 action2,
            let r1 := dispatch sid (like_event e postId action1) w in
            let r2 := dispatch sid (like_event e postId action2) (reached r1) in
            likes_of (reached r2) e = Some (acted (acted likes u action1) u action2)
            ∧ emitted r2
              = addressed
                  (likes_updated e postId
                     (length (acted (acted likes u action1) u action2)) action2) room)
    as Hsecond.
  { intros action1 action2 r1 r2. subst r2.
    destruct (Hfirst action1) as (Hreg1 & Hup1 & Hsave1 & Hl1).
    fold r1 in Hreg1, Hup1, Hsave1, Hl1.
    assert (sockets (reached r1) !! sid = Some socket) as Hs1 by (by rewrite Hreg1).
    destruct (like_event_run (reached r1) sid socket e postId action2 Hs1)
      as (_ & _ & Hcases).
    fold u in Hcases. rewrite Hup1, Hreg1 in Hcases. simpl in Hcases.
    destruct Hcases as [(_ & _ & Hwhy)|[(_ & _ & Hnone)|(likes0 & Hl0 & Hnew & Hout & _)]].
    - unfold u in Hwhy. destruct Hwhy as [?|[?|[?|[?|?]]]]; congruence.
    - congruence.
    - assert (likes0 = acted likes u action1) as -> by congruence. done. }
  split.
  - intros Hnin r1 r2.
    destruct (Hfirst like) as (_ & _ & _ & Hl1).
    destruct (Hsecond like unlike) as (Hl2 & Hout).
    fold r1 in Hl1. fold r1 r2 in Hl2, Hout.
    rewrite acted_like_unlike in Hl2, Hout by done.
    rewrite acted_like_absent in Hl1 by done. unfold u in Hl1.
    rewrite Hprint in Hl1. done.
  - intros Hin Hnd r1 r2.
    destruct (Hfirst unlike) as (_ & _ & _ & Hl1).
    destruct (Hsecond unlike like) as (Hl2 & Hout).
    fold r1 in Hl1. fold r1 r2 in Hl2, Hout.
    destruct (acted_unlike_like likes u Hprint Hnd Hin) as (Hgone & Hperm & Hlen).
    rewrite Hlen in Hout. eauto 10.
Qed.

(** ** The like lists over the life of the server *)

Lemma likes_of_ext w w' e :
  posts w' = posts w → comments w' = comments w → likes_of w' e = likes_of w e.
Proof. intros Hp Hc. destruct e; simpl; by rewrite ?Hp, ?Hc. Qed.

Lemma on_update_comment_run sid commentId content postId w :
  let r := on_update_comment sid commentId content postId w in
  posts (reached r) = posts w
  ∧ (comments (reached r) = comments w
     ∨ ∃ c, comments w !! commentId = Some c
         ∧ comments (reached r) = <[commentId := Comment.edit (trim content) c]> (comments w)).
Proof.
  intros r. subst r.
  remember (on_update_comment sid commentId content postId w) as r eqn:Hr.
  unfold on_update_comment, findByIdAndUpdate, populate, try_catch, cast_id, round_trip,
    get, modify, ret, throw, socket_emit, io_to_emit, deliver, bind in Hr.
  destruct (is_object_id commentId); simpl in Hr; [|subst r; by auto].
  destruct (outages w) as [|[] rest] eqn:Hout; simpl in Hr; [|subst r; by auto|].
  all: destruct (comments w !! commentId) as [c|] eqn:Hc; simpl in Hr;
    [|subst r; by auto].
  all: try (destruct rest as [|[] rest']; simpl in Hr).
  all: subst r; unfold reached; simpl; split; [done|]; right; by exists c.
Qed.

Lemma on_private_message_stores sid socket toUserId message w :
  let r := on_private_message sid socket toUserId message w in
  posts (reached r) = posts w ∧ comments (reached r) = comments w.
Proof.
  intros r. subst r.
  remember (on_private_message sid socket toUserId message w) as r eqn:Hr.
  unfold on_private_message, try_catch in Hr. unfold bind in Hr.
  rewrite findById_run in Hr.
  destruct (is_object_id toUserId); simpl in Hr; [|subst r; by auto].
  destruct (outages w) as [|[] rest] eqn:Hout; simpl in Hr; [|subst r; by auto|].
  all: destruct (users w !! toUserId); simpl in Hr; subst r; by auto.
Qed.

(** What an event can do to a like list: leave it, act on it once, or
    bring a new, empty one into the store. *)
Lemma dispatch_likes sid ev w e likes' :
  likes_of (reached (dispatch sid ev w)) e = Some likes' →
  likes' = []
  ∨ ∃ likes, likes_of w e = Some likes
      ∧ (likes' = likes
         ∨ ∃ socket action, sockets w !! sid = Some socket
             ∧ likes' = acted likes (userId socket) action).
Proof.
  assert (∀ w', posts w' = posts w → comments w' = comments w →
                likes_of w' e = Some likes' →
                likes' = []
                ∨ ∃ likes, likes_of w e = Some likes
                    ∧ (likes' = likes
                       ∨ ∃ socket action, sockets w !! sid = Some socket
                           ∧ likes' = acted likes (userId socket) action))
    as Hsame.
  { intros w' Hp Hc Hl. right. exists likes'. rewrite <- (likes_of_ext w w' e Hp Hc). auto. }
  destruct (sockets w !! sid) as [socket|] eqn:Hs;
    [|rewrite dispatch_unknown by done; by apply Hsame].
  unfold dispatch. rewrite bind_get, Hs.
  destruct ev; try (by apply Hsame); try (destruct name; by apply Hsame).
  - (* new-comment *)
    destruct (on_new_comment_run sid socket postId content parentComment w)
      as (_ & _ & _ & Hp & Hcases).
    assert (comments (reached (on_new_comment sid socket postId content parentComment w))
              = comments w
            ∨ comments (reached (on_new_comment sid socket postId content parentComment w))
              = <[new_object_id (minted w) := drafted socket postId content parentComment]>
                  (comments w)) as [Hc|Hc]
      by (destruct Hcases as [[_ ?]|[(_ & _ & _ & ? & _)|(_ & _ & _ & ? & _)]]; auto).
    + by apply Hsame.
    + intros Hl. destruct e as [id|id]; simpl in *.
      * rewrite Hp in Hl. right. eauto.
      * rewrite Hc in Hl. destruct (decide (new_object_id (minted w) = id)) as [<-|Hne].
        -- rewrite lookup_insert_eq in Hl. simpl in Hl. injection Hl as <-. by left.
        -- rewrite lookup_insert_ne in Hl by done. right. eauto.
  - (* update-comment *)
    destruct (on_update_comment_run sid commentId content postId w) as (Hp & [Hc|(c & Hc & Hnew)]).
    + by apply Hsame.
    + intros Hl. right. destruct e as [id|id]; simpl in *.
      * rewrite Hp in Hl. eauto.
      * rewrite Hnew in Hl. destruct (decide (commentId = id)) as [<-|Hne].
        -- rewrite lookup_insert_eq in Hl. simpl in Hl. injection Hl as <-.
           exists (Comment.likes c). rewrite Hc. auto.
        -- rewrite lookup_insert_ne in Hl by done. eauto.
  - (* delete-comment *)
    unfold on_delete_comment, try_catch, bind. rewrite findByIdAndDelete_run.
    destruct (is_object_id commentId); [|by apply Hsame].
    destruct (outages w) as [|[] rest] eqn:Hout; simpl; try (by apply Hsame).
    all: unfold reached; simpl; intros Hl; right; destruct e as [id|id]; simpl in *;
      [by eauto|].
    all: destruct (decide (commentId = id)) as [<-|Hne];
      [by rewrite lookup_delete_eq in Hl|rewrite lookup_delete_ne in Hl by done; eauto].
  - (* post-like *)
    destruct (on_post_like_run sid socket postId action w) as (_ & _ & Hc & Hcases).
    destruct Hcases as [(_ & Hp & _)|[(_ & Hp & _)|(post & Hpost & Hp & _)]];
      [by apply Hsame|by apply Hsame|].
    intros Hl. right. destruct e as [id|id]; simpl in *.
    + rewrite Hp in Hl. destruct (decide (postId = id)) as [<-|Hne].
      * rewrite lookup_insert_eq in Hl. simpl in Hl. injection Hl as <-.
        exists (Post.likes post). rewrite Hpost. eauto 10.
      * rewrite lookup_insert_ne in Hl by done. eauto.
    + rewrite Hc in Hl. eauto.
  - (* comment-like *)
    destruct (on_comment_like_run sid socket commentId postId action w)
      as (_ & _ & Hp & Hcases).
    destruct Hcases as [(_ & Hc & _)|[(_ & Hc & _)|(c & Hfound & _ & Hc & _)]];
      [by apply Hsame|by apply Hsame|].
    intros Hl. right. destruct e as [id|id]; simpl in *.
    + rewrite Hp in Hl. eauto.
    + rewrite Hc in Hl. destruct (decide (commentId = id)) as [<-|Hne].
      * rewrite lookup_insert_eq in Hl. simpl in Hl. injection Hl as <-.
        exists (Comment.likes c). rewrite Hfound. eauto 10.
      * rewrite lookup_insert_ne in Hl by done. eauto.
  - (* private-message *)
    destruct (on_private_message_stores sid socket toUserId message w) as [Hp Hc].
    by apply Hsame.
Qed.

Lemma connect_registry sid token w :
  sockets (reached (connect sid token w)) = sockets w
  ∨ ∃ t id name,
      jwt_verify t = Some (Some id)
      ∧ sockets (reached (connect sid token w))
        = <[sid := {| userId := id; username := name; rooms := ∅ |}]> (sockets w).
Proof.
  remember (connect sid token w) as r eqn:Hr.
  unfold connect, authenticate, try_catch, bind, round_trip, ret, throw, modify in Hr.
  destruct (or_null token) as [t|]; simpl in Hr; [|subst r; by auto].
  destruct (jwt_verify t) as [[id|]|] eqn:Hv; simpl in Hr; [| |subst r; by auto].
  - rewrite findById_run in Hr. destruct (is_object_id id); simpl in Hr; [|subst r; by auto].
    destruct (outages w) as [|[] ?]; simpl in Hr; try (subst r; by auto).
    all: destruct (users w !! id) as [user|]; simpl in Hr; subst r; [|by auto].
    all: right; exists t, id, (User.username user); by split.
  - destruct (outages w) as [|[] ?]; simpl in Hr; subst r; by auto.
Qed.

Lemma connect_stores sid token w :
  posts (reached (connect sid token w)) = posts w
  ∧ comments (reached (connect sid token w)) = comments w.
Proof.
  remember (connect sid token w) as r eqn:Hr.
  unfold connect, authenticate, try_catch, bind, round_trip, ret, throw, modify in Hr.
  destruct (or_null token) as [t|]; simpl in Hr; [|subst r; by auto].
  destruct (jwt_verify t) as [[id|]|]; simpl in Hr; [| |subst r; by auto].
  - rewrite findById_run in Hr. destruct (is_object_id id); simpl in Hr; [|subst r; by auto].
    destruct (outages w) as [|[] ?]; simpl in Hr; try (subst r; by auto).
    all: destruct (users w !! id); simpl in Hr; subst r; by auto.
  - destruct (outages w) as [|[] ?]; simpl in Hr; subst r; by auto.
Qed.

End Properties.

(** ** The ephemeral signals on the concrete deployment *)

(** Alice types in the room of post 42: Bob, who is in the room, is
    handed the signal and Alice is not. *)
Lemma typing_start_witness :
  (2, user_typing alice_id "alice" reply)
    ∈ emitted (@dispatch demo 1 (typing_start post_42 reply) demo_world)
  ∧ (1, user_typing alice_id "alice" reply)
    ∉ emitted (@dispatch demo 1 (typing_start post_42 reply) demo_world).
Proof.
  pose proof (@typing_start_reaches_other_members demo demo_world 1
                {| userId := alice_id; username := "alice";
                   rooms := {[ room_of post_42 ]} |} post_42 reply eq_refl)
    as (_ & _ & Hiff & Hself).
  split; [|apply Hself].
  apply Hiff. split; [reflexivity|]. split; [discriminate|].
  eexists. split; [reflexivity|]. simpl. set_solver.
Defined.

(** C8 as stated fails: Alice, a connected socket, announces herself
    and is not among those handed the `user-status` event. *)
Lemma user_online_not_to_sender :
  is_Some (sockets demo_world !! 1)
  ∧ ¬ (∀ sid, is_Some (sockets demo_world !! sid) →
         (sid, user_status alice_id "alice" online)
           ∈ emitted (@dispatch demo 1 user_online demo_world)).
Proof.
  split; [by eexists|].
  intros Hall. specialize (Hall 1 (ltac:(by eexists))).
  assert (emitted (@dispatch demo 1 user_online demo_world)
          = [(2, user_status alice_id "alice" online);
             (3, user_status alice_id "alice" online)]) as Hrun
    by (vm_compute; reflexivity).
  rewrite Hrun, !elem_of_cons, elem_of_nil in Hall.
  destruct Hall as [Heq|[Heq|[]]]; discriminate Heq.
Defined.

Lemma user_online_witness :
  (3, user_status alice_id "alice" online)
    ∈ emitted (@dispatch demo 1 user_online demo_world).
Proof.
  pose proof (@user_online_reaches_all_others demo demo_world 1
                {| userId := alice_id; username := "alice";
                   rooms := {[ room_of post_42 ]} |} eq_refl)
    as (_ & _ & Hiff & _).
  apply Hiff. split; [reflexivity|]. split; [discriminate|]. by eexists.
Defined.



(** ** Comments on the concrete deployment *)

(** Bob comments on post 42: Alice and Bob, both in the room, are
    handed the stored comment, and Carol, who joined no room, is not. *)
Lemma comment_added_witness :
  let r := @dispatch demo 2 (new_comment post_42 (said "hello world") None) demo_world in
  let view := {| view_id := demo_mint 0;
                 view_doc := Comment.mk (said "hello world") bob_id post_42 None [] false;
                 view_author := Some (User.mk "bob") |} in
  (1, comment_added view post_42) ∈ emitted r
  ∧ (2, comment_added view post_42) ∈ emitted r
  ∧ (3, comment_added view post_42) ∉ emitted r.
Proof.
  intros r view.
  destruct (@comment_added_reaches_the_room demo demo_world 2
              {| userId := bob_id; username := "bob"; rooms := {[ room_of post_42 ]} |}
              post_42 (said "hello world") None eq_refl)
    as (_ & _ & _ & _ & Hiff & Hself & Hout).
  - vm_compute; reflexivity.
  - vm_compute; reflexivity.
  - discriminate.
  - split; [|split].
    + apply Hiff. split; [vm_compute; reflexivity|].
      eexists. split; [reflexivity|]. simpl. set_solver.
    + apply Hiff. split; [vm_compute; reflexivity|].
      eexists. split; [reflexivity|]. simpl. set_solver.
    + eapply Hout; [reflexivity|]. simpl. set_solver.
Defined.

(** C5 as stated fails: Bob comments on post 42, the save succeeds and
    the round trip of `populate` rejects.  The comment is stored, and
    yet Alice, who is in the room, is handed nothing: the one event
    emitted is the `comment-error` to Bob. *)
Lemma persisted_comment_not_announced :
  let r := @dispatch demo 2 (new_comment post_42 (said "hello world") None) flaky_world in
  comments flaky_world !! demo_mint 0 = None
  ∧ comments (reached r) !! demo_mint 0
    = Some (Comment.mk (said "hello world") bob_id post_42 None [] false)
  ∧ member flaky_world 1 (room_of post_42)
  ∧ emitted r = [(2, comment_error "Failed to add comment")]
  ∧ ∀ view postId, (1, comment_added view postId) ∉ emitted r.
Proof.
  intros r.
  assert (emitted r = [(2, comment_error "Failed to add comment")]) as Hrun
    by (vm_compute; reflexivity).
  split; [vm_compute; reflexivity|]. split; [vm_compute; reflexivity|].
  split; [eexists; split; [reflexivity|simpl; set_solver]|].
  split; [exact Hrun|].
  intros view postId Hin. rewrite Hrun in Hin.
  apply list_elem_of_singleton in Hin. discriminate Hin.
Qed.

(** A comment of spaces only is refused. *)
Lemma out_of_bounds_witness :
  emitted (@dispatch demo 2 (new_comment post_42 (said "   ") None) demo_world)
    = [(2, comment_error "Failed to add comment")]
  ∧ comments (reached (@dispatch demo 2 (new_comment post_42 (said "   ") None) demo_world))
    = comments demo_world.
Proof.
  destruct (@out_of_bounds_comment_refused demo demo_world 2
              {| userId := bob_id; username := "bob"; rooms := {[ room_of post_42 ]} |}
              post_42 (said "   ") None eq_refl) as (Hout & Hsame & _).
  - left. reflexivity.
  - split; assumption.
Defined.

(** C6 as stated fails: a content of 1001 units, a thousand letters
    and a trailing space, is longer than 1000 units, and yet it is
    stored (trimmed to its thousand letters) and broadcast to the room;
    the sender is handed no `comment-error`. *)
Lemma overlong_comment_accepted :
  let content := replicate 1000 97%N ++ [32%N] in
  let r := @dispatch demo 2 (new_comment post_42 content None) demo_world in
  let view := {| view_id := demo_mint 0;
                 view_doc := Comment.mk (replicate 1000 97%N) bob_id post_42 None [] false;
                 view_author := Some (User.mk "bob") |} in
  length content = 1001
  ∧ comments demo_world !! demo_mint 0 = None
  ∧ comments (reached r) !! demo_mint 0 = Some (view_doc view)
  ∧ emitted r = [(2, comment_added view post_42); (1, comment_added view post_42)].
Proof. repeat split; vm_compute; reflexivity. Qed.

(** C1 at its failing inputs. Over the live channel Bob replies, on the
    draft post 43, to a parent comment that does not exist: the comment
    is stored and `comment-added` is handed to Carol in the room.  He
    comments on a post that does not exist: that comment is stored as
    well.  The REST route given the same two bodies answers 404 and
    stores nothing. *)
Theorem new_comment_checks_no_reference :
  let reply_to_nothing :=
    @dispatch demo 2 (new_comment post_43 (said "hello") (Some missing_id)) draft_room_world in
  let on_no_post :=
    @dispatch demo 2 (new_comment missing_id (said "hello") None) draft_room_world in
  let stored := Comment.mk (said "hello") bob_id post_43 (Some missing_id) [] false in
  let orphan := Comment.mk (said "hello") bob_id missing_id None [] false in
  (Post.status <$> posts draft_room_world !! post_43) = Some draft
  ∧ posts draft_room_world !! missing_id = None
  ∧ comments draft_room_world = ∅
  ∧ comments (reached reply_to_nothing) !! demo_mint 0 = Some stored
  ∧ emitted reply_to_nothing
    = [(3, comment_added {| view_id := demo_mint 0; view_doc := stored;
                            view_author := Some (User.mk "bob") |} post_43)]
  ∧ comments (reached on_no_post) !! demo_mint 0 = Some orphan
  ∧ result (@create_comment_route demo bob_id
              {| body_content := said "hello"; body_post := post_43;
                 body_parentComment := Some missing_id |} draft_room_world)
    = Returned (json 404 "Post not found")
  ∧ result (@create_comment_route demo bob_id
              {| body_content := said "hello"; body_post := missing_id;
                 body_parentComment := None |} draft_room_world)
    = Returned (json 404 "Post not found")
  ∧ result (@create_comment_route demo bob_id
              {| body_content := said "hello"; body_post := post_42;
                 body_parentComment := Some missing_id |} draft_room_world)
    = Returned (json 404 "Parent comment not found").
Proof. repeat split; vm_compute; reflexivity. Qed.

(** ** Missing documents on the concrete deployment *)



(** ** Likes on the concrete deployment *)

(** C3 as stated fails: Bob is already among the likers of post 42 and
    of comment 7; his like followed by his unlike leaves both like
    lists empty and the second broadcast carries 0, where the lists
    held one liker.  And on a post he has not liked, his unlike
    followed by his like leaves one liker where there was none. *)
Lemma like_then_unlike_loses_a_like :
  let liked_post := @dispatch demo 2 (post_like post_42 like) liked_world in
  let unliked_post := @dispatch demo 2 (post_like post_42 unlike) (reached liked_post) in
  let liked_comment := @dispatch demo 2 (comment_like comment_7 post_42 like) liked_world in
  let unliked_comment :=
    @dispatch demo 2 (comment_like comment_7 post_42 unlike) (reached liked_comment) in
  let unliked_first := @dispatch demo 2 (post_like post_42 unlike) demo_world in
  let liked_after := @dispatch demo 2 (post_like post_42 like) (reached unliked_first) in
  likes_of liked_world (a_post post_42) = Some [bob_id]
  ∧ likes_of (reached unliked_post) (a_post post_42) = Some []
  ∧ emitted unliked_post
    = [(2, post_likes_updated post_42 0 unlike); (1, post_likes_updated post_42 0 unlike)]
  ∧ likes_of liked_world (a_comment comment_7) = Some [bob_id]
  ∧ likes_of (reached unliked_comment) (a_comment comment_7) = Some []
  ∧ emitted unliked_comment
    = [(2, comment_likes_updated comment_7 post_42 0 unlike);
       (1, comment_likes_updated comment_7 post_42 0 unlike)]
  ∧ likes_of demo_world (a_post post_42) = Some []
  ∧ likes_of (reached liked_after) (a_post post_42) = Some [bob_id]
  ∧ emitted liked_after
    = [(2, post_likes_updated post_42 1 like); (1, post_likes_updated post_42 1 like)].
Proof. repeat split; vm_compute; reflexivity. Qed.

(** Bob, who has not liked post 42, likes it and then unlikes it: the
    list is empty again and the second broadcast says 0. *)
Lemma like_round_trip_witness :
  likes_of
    (reached (@dispatch demo 2 (post_like post_42 unlike)
                (reached (@dispatch demo 2 (post_like post_42 like) demo_world))))
    (a_post post_42) = Some []
  ∧ emitted (@dispatch demo 2 (post_like post_42 unlike)
               (reached (@dispatch demo 2 (post_like post_42 like) demo_world)))
    = addressed (post_likes_updated post_42 0 unlike)
        (filter (in_room (room_of post_42)) (map_to_list (sockets demo_world))).
Proof.
  destruct (@like_round_trip demo demo_world 2
              {| userId := bob_id; username := "bob"; rooms := {[ room_of post_42 ]} |}
              (a_post post_42) post_42 [] eq_refl eq_refl eq_refl eq_refl eq_refl
              eq_refl I)
    as (Hthere_and_back & _).
  destruct Hthere_and_back as (_ & Hlikes & Hout); [apply not_elem_of_nil|].
  split; [exact Hlikes|exact Hout].
Defined.



(** * Further properties *)

(** ** What every run of a computation keeps *)

Section Always.
Variable I : World → World → Prop.
Variable O : Delivery → Prop.
Hypothesis I_refl : ∀ w, I w w.
Hypothesis I_trans : ∀ w1 w2 w3, I w1 w2 → I w2 w3 → I w1 w3.

Lemma always_ret {A} (a : A) : always I O (ret a).
Proof. intros w. split; [apply I_refl|constructor]. Qed.

Lemma always_throw {A} : always I O (@throw A).
Proof. intros w. split; [apply I_refl|constructor]. Qed.

Lemma always_get : always I O get.
Proof. intros w. split; [apply I_refl|constructor]. Qed.

Lemma always_modify f : (∀ w, I w (f w)) → always I O (modify f).
Proof. intros Hf w. split; [apply Hf|constructor]. Qed.

Lemma always_deliver ds : (∀ w, Forall O (ds w)) → always I O (deliver ds).
Proof. intros Hds w. split; [apply I_refl|apply Hds]. Qed.

Lemma always_bind {A B} (m : M A) (f : A → M B) :
  always I O m → (∀ a, always I O (f a)) → always I O (bind m f).
Proof.
  intros Hm Hf w. specialize (Hm w). unfold bind, reached, emitted in *.
  destruct (m w) as [[w1 o1] [a|]]; simpl in *; [|done].
  specialize (Hf a w1). unfold reached, emitted in Hf.
  destruct (f a w1) as [[w2 o2] r]; simpl in *.
  destruct Hm as [Hm1 Hm2], Hf as [Hf1 Hf2].
  split; [by eapply I_trans|by apply Forall_app].
Qed.

Lemma always_try_catch {A} (m h : M A) :
  always I O m → always I O h → always I O (try_catch m h).
Proof.
  intros Hm Hh w. specialize (Hm w). unfold try_catch, reached, emitted in *.
  destruct (m w) as [[w1 o1] [a|]]; simpl in *; [done|].
  specialize (Hh w1). unfold reached, emitted in Hh.
  destruct (h w1) as [[w2 o2] r]; simpl in *.
  destruct Hm as [Hm1 Hm2], Hh as [Hh1 Hh2].
  split; [by eapply I_trans|by apply Forall_app].
Qed.

End Always.

Lemma safe_try_catch {A} (m h : M A) : safe h → safe (try_catch m h).
Proof.
  intros Hh w. unfold try_catch, result.
  destruct (m w) as [[w1 o1] [a|]]; simpl; [done|].
  specialize (Hh w1). unfold result in Hh. by destruct (h w1) as [[w2 o2] r].
Qed.

Lemma safe_deliver ds : safe (deliver ds).
Proof. by intros w. Qed.

Lemma safe_modify f : safe (modify f).
Proof. by intros w. Qed.

Lemma safe_ret {A} (a : A) : safe (ret a).
Proof. by intros w. Qed.

Lemma safe_bind {A B} (m : M A) (f : A → M B) :
  safe m → (∀ a, safe (f a)) → safe (bind m f).
Proof.
  intros Hm Hf w. specialize (Hm w). unfold bind, result in *.
  destruct (m w) as [[w1 o1] [a|]]; simpl in *; [|done].
  specialize (Hf a w1). unfold result in Hf. by destruct (f a w1) as [[w2 o2] r].
Qed.

Lemma always_round_trip `{Collaborators} I O :
  (∀ w o, I w (set_outages o w)) → always I O round_trip.
Proof. intros Hout w. split; [apply Hout|constructor]. Qed.

Lemma Forall_addressed (O : Delivery → Prop) ev ps :
  (∀ sid, O (sid, ev)) → Forall O (addressed ev ps).
Proof. intros HO. unfold addressed. apply Forall_fmap, Forall_forall. intros p _. apply HO. Qed.

Create HintDb handlers.

#[global] Hint Unfold dispatch on_join_post on_leave_post on_new_comment on_update_comment
  on_delete_comment on_post_like on_comment_like on_typing_start on_typing_stop
  on_user_online on_private_message on_disconnect on_without_payload field_of_undefined
  findById cast_id populate new_Comment save_new_comment save_post save_comment
  findByIdAndUpdate findByIdAndDelete push apply_action
  socket_emit io_to_emit socket_to_emit socket_broadcast_emit io_emit
  socket_join socket_leave
  authenticate connect authenticateToken optionalAuth requireOwnership
  remove_comment update_comment_route delete_comment_route
  like_comment_route like_post_route moderate_comment_route create_comment_route
  : handlers.

Create HintDb preorder.

(** One step through a computation, by its shape. *)
Ltac preorder := solve [ done | intros; eauto 3 with preorder ].

Ltac always_step :=
  lazymatch goal with
  | |- always _ _ (bind _ _) => apply always_bind; [preorder| |intros ?]
  | |- always _ _ (try_catch _ _) => apply always_try_catch; [preorder| |]
  | |- always _ _ (ret _) => apply always_ret; preorder
  | |- always _ _ throw => apply always_throw; preorder
  | |- always _ _ get => apply always_get; preorder
  | |- always _ _ round_trip => apply always_round_trip
  | |- always _ _ (modify _) => apply always_modify
  | |- always _ _ (deliver _) => apply always_deliver; [preorder|]
  | |- always _ _ (match ?x with _ => _ end) => destruct x
  end.

Ltac always_run :=
  repeat first [ always_step
               | progress autounfold with handlers
               | progress cbv beta zeta ].

Section Frames.
Context `{Collaborators}.

Lemma framed_refl ev w : framed ev w w.
Proof. by repeat split. Qed.

Lemma framed_trans ev w1 w2 w3 : framed ev w1 w2 → framed ev w2 w3 → framed ev w1 w3.
Proof.
  intros (Hu & Hp & Hc & Hs) (Hu' & Hp' & Hc' & Hs').
  split; [congruence|]. split; [|split]; intros Hw.
  - rewrite Hp', Hp; done.
  - rewrite Hc', Hc; done.
  - rewrite Hs', Hs; done.
Qed.

#[local] Hint Resolve framed_refl framed_trans : preorder.

Lemma dispatch_framed sid ev : always (framed ev) (λ _, True) (dispatch sid ev).
Proof.
  destruct ev; always_run.
  all: try (intros; by repeat split).
  all: try (intros; apply Forall_true; done).
Qed.

Lemma safe_get : safe get.
Proof. by intros w. Qed.

Lemma dispatch_safe sid ev : escapes ev = false → safe (dispatch sid ev).
Proof.
  intros Hkept. unfold dispatch. apply safe_bind; [apply safe_get|]. intros w.
  destruct (sockets w !! sid); [|apply safe_ret].
  destruct ev; try destruct name; try discriminate Hkept; autounfold with handlers;
    first [apply safe_try_catch | idtac];
    first [apply safe_deliver | apply safe_modify | idtac].
  apply safe_bind; [apply safe_modify|intros _; apply safe_deliver].
Qed.

Lemma dispatch_escapes sid socket ev w :
  escapes ev = true → sockets w !! sid = Some socket → dispatch sid ev w = (w, [], Thrown).
Proof.
  intros Hescapes Hs. unfold dispatch. rewrite bind_get, Hs.
  destruct ev; try discriminate Hescapes. by destruct name.
Qed.

Lemma registry_kept_refl sid ev w : registry_kept sid ev w w.
Proof. split; [done|]. intros _ s Hs. by exists s. Qed.

Lemma registry_kept_trans sid ev w1 w2 w3 :
  registry_kept sid ev w1 w2 → registry_kept sid ev w2 w3 → registry_kept sid ev w1 w3.
Proof.
  intros [Ho Hs] [Ho' Hs']. split.
  - intros sid' Hne. rewrite Ho', Ho; done.
  - intros Hev s Hin. destruct (Hs Hev s Hin) as (s' & Hin' & Hu & Hn).
    destruct (Hs' Hev s' Hin') as (s'' & Hin'' & Hu' & Hn').
    exists s''. split; [done|]. split; congruence.
Qed.

#[local] Hint Resolve registry_kept_refl registry_kept_trans : preorder.

Lemma dispatch_registry_kept sid ev :
  always (registry_kept sid ev) (λ _, True) (dispatch sid ev).
Proof.
  destruct ev; always_run.
  all: try (intros; apply Forall_true; done).
  all: try (intros; split; [done|]; intros _ ? ?; by eexists).
  - intros w. split; simpl.
    + intros sid' Hne. by rewrite lookup_alter_ne.
    + intros _ s' Hs'. rewrite lookup_alter_eq, Hs'. simpl. eauto.
  - intros w. split; simpl.
    + intros sid' Hne. by rewrite lookup_alter_ne.
    + intros _ s' Hs'. rewrite lookup_alter_eq, Hs'. simpl. eauto.
  - intros w. split; simpl; [|done].
    intros sid' Hne. by rewrite lookup_delete_ne.
  - intros w. split; simpl.
    + intros sid' Hne. by rewrite lookup_alter_ne.
    + intros _ s' Hs'. rewrite lookup_alter_eq, Hs'. simpl. eauto.
  - intros w. split; simpl.
    + intros sid' Hne. by rewrite lookup_alter_ne.
    + intros _ s' Hs'. rewrite lookup_alter_eq, Hs'. simpl. eauto.
Qed.

Lemma dispatch_errors_scoped sid ev :
  always (λ _ _, True) (error_only_to sid) (dispatch sid ev).
Proof.
  destruct ev; always_run.
  all: try done.
  all: intros w; first [ apply Forall_addressed; intros ?; by intros ?
                       | by repeat constructor ].
Qed.

(** X1. An event that comes with the payload its handler declares is
    handled to the end whatever the store does: nothing the handler
    throws escapes it.  So is an event that comes without a payload,
    unless it is `typing-start` or `typing-stop`.  Whenever the handler
    so returns, the other sockets are registered as they were; the
    sender, unless the event is its disconnect, is registered under the
    userId and username it had; and a scoped error event
    (`comment-error`, `post-error`, `message-error`) has been handed to
    no socket but the sender.  `typing-start` and `typing-stop` read
    their payload outside any `try`: sent without one by a registered
    socket they throw out of the handler, having emitted nothing and
    changed nothing. *)
Theorem handlers_contain_their_failures w sid ev :
  let r := dispatch sid ev w in
  (escapes ev = false →
   result r = Returned tt
   ∧ (∀ sid', sid' ≠ sid → sockets (reached r) !! sid' = sockets w !! sid')
   ∧ (ev ≠ disconnect →
      ∀ s, sockets w !! sid = Some s →
           ∃ s', sockets (reached r) !! sid = Some s'
                 ∧ userId s' = userId s ∧ username s' = username s)
   ∧ (∀ sid' e, (sid', e) ∈ emitted r → is_scoped_error e = true → sid' = sid))
  ∧ (escapes ev = true → is_Some (sockets w !! sid) →
     result r = Thrown ∧ reached r = w ∧ emitted r = []).
Proof.
  intros r. subst r. split.
  - intros Hkept.
    destruct (dispatch_registry_kept sid ev w) as [[Hothers Hself] _].
    destruct (dispatch_errors_scoped sid ev w) as [_ Herr].
    split.
    + pose proof (dispatch_safe sid ev Hkept w) as Hsafe.
      destruct (result (dispatch sid ev w)) as [[]|]; done.
    + split; [done|]. split; [done|].
      intros sid' e Hin Herror. rewrite Forall_forall in Herr.
      by apply (Herr _ Hin).
  - intros Hescapes [socket Hs]. by rewrite (dispatch_escapes sid socket ev w).
Qed.

(** X2. No event and no failure of the store makes a handler write to
    the users.  The posts are written by `post-like` alone, the
    comments by `new-comment`, `update-comment`, `delete-comment` and
    `comment-like` alone, and the registry of sockets by `join-post`,
    `leave-post` and `disconnect` alone: typing signals, presence and
    private messages leave every store and the registry as they were. *)
Theorem events_write_only_their_own w sid ev :
  let r := dispatch sid ev w in
  users (reached r) = users w
  ∧ (writes_posts ev = false → posts (reached r) = posts w)
  ∧ (writes_comments ev = false → comments (reached r) = comments w)
  ∧ (writes_registry ev = false → sockets (reached r) = sockets w).
Proof. intros r. subst r. by destruct (dispatch_framed sid ev w) as [Hframed _]. Qed.

End Frames.

Section Rooms.
Context `{Collaborators}.

Lemma dispatch_join w sid socket postId :
  sockets w !! sid = Some socket →
  dispatch sid (join_post postId) w
  = (set_sockets (alter (λ s, set_rooms (rooms s ∪ {[room_of postId]}) s) sid) w, [],
     Returned tt).
Proof. intros Hs. unfold dispatch. rewrite bind_get, Hs. done. Qed.

Lemma dispatch_leave w sid socket postId :
  sockets w !! sid = Some socket →
  dispatch sid (leave_post postId) w
  = (set_sockets (alter (λ s, set_rooms (rooms s ∖ {[room_of postId]}) s) sid) w, [],
     Returned tt).
Proof. intros Hs. unfold dispatch. rewrite bind_get, Hs. done. Qed.

Lemma set_rooms_same s : set_rooms (rooms s) s = s.
Proof. by destruct s. Qed.

(** X3. `join-post` puts the sender into the room of the post and
    changes no other membership: afterwards a socket is in a room if
    and only if it was before or it is the sender and the room is that
    of the post.  Nothing is emitted, and joining again changes
    nothing. *)
Theorem join_post_adds_one_membership w sid socket postId :
  sockets w !! sid = Some socket →
  let r := dispatch sid (join_post postId) w in
  emitted r = []
  ∧ (∀ sid' room, member (reached r) sid' room
                  ↔ member w sid' room ∨ (sid' = sid ∧ room = room_of postId))
  ∧ sockets (reached (dispatch sid (join_post postId) (reached r))) = sockets (reached r).
Proof.
  intros Hs r. subst r. rewrite (dispatch_join w sid socket postId Hs).
  unfold reached, emitted, member. simpl. split; [done|]. split.
  - intros sid' room. destruct (decide (sid' = sid)) as [->|Hne].
    + rewrite lookup_alter_eq, Hs. simpl. split.
      * intros (s & Heq & Hin). injection Heq as <-. simpl in Hin.
        apply elem_of_union in Hin as [Hin|Hin]; [left; eauto|].
        apply elem_of_singleton in Hin. by right.
      * intros [(s & Heq & Hin)|[_ ->]]; eexists; (split; [done|]); simpl.
        -- injection Heq as <-. set_solver.
        -- set_solver.
    + rewrite lookup_alter_ne by done. split; [by left|].
      intros [?|[? _]]; done.
  - erewrite dispatch_join; [|simpl; by rewrite lookup_alter_eq, Hs].
    simpl. apply map_eq. intros sid'. destruct (decide (sid' = sid)) as [->|Hne].
    + rewrite !lookup_alter_eq, Hs. simpl. f_equal. unfold set_rooms. simpl. f_equal.
      apply set_eq. intros room. rewrite !elem_of_union. tauto.
    + by rewrite !lookup_alter_ne.
Qed.

(** X4. `leave-post` takes the sender out of the room of the post and
    changes no other membership; leaving a room the sender is not in
    changes nothing; and leaving right after joining a room the sender
    was not in puts the registry back as it was. *)
Theorem leave_post_removes_one_membership w sid socket postId :
  sockets w !! sid = Some socket →
  let r := dispatch sid (leave_post postId) w in
  emitted r = []
  ∧ (∀ sid' room, member (reached r) sid' room
                  ↔ member w sid' room ∧ ¬ (sid' = sid ∧ room = room_of postId))
  ∧ (room_of postId ∉ rooms socket →
     sockets (reached r) = sockets w
     ∧ sockets (reached (dispatch sid (leave_post postId)
                           (reached (dispatch sid (join_post postId) w))))
       = sockets w).
Proof.
  intros Hs r. subst r. rewrite (dispatch_leave w sid socket postId Hs).
  unfold reached, emitted, member. simpl. split; [done|]. split.
  - intros sid' room. destruct (decide (sid' = sid)) as [->|Hne].
    + rewrite lookup_alter_eq, Hs. simpl. split.
      * intros (s & Heq & Hin). injection Heq as <-. simpl in Hin.
        apply elem_of_difference in Hin as [Hin Hnot]. split; [eauto|].
        intros [_ ->]. apply Hnot. by apply elem_of_singleton.
      * intros [(s & Heq & Hin) Hnot]. injection Heq as <-.
        eexists. split; [done|]. simpl. apply elem_of_difference. split; [done|].
        intros Heq. apply elem_of_singleton in Heq. by apply Hnot.
    + rewrite lookup_alter_ne by done. split; [|by intros [? _]].
      intros Hm. split; [done|]. by intros [? _].
  - intros Hout. split.
    + apply map_eq. intros sid'. destruct (decide (sid' = sid)) as [->|Hne].
      * rewrite lookup_alter_eq, Hs. simpl. f_equal.
        replace (rooms socket ∖ {[room_of postId]}) with (rooms socket)
          by (apply set_eq; intros room; rewrite elem_of_difference, elem_of_singleton;
              split; [intros Hin; split; [done|]; by intros ->|by intros [? _]]).
        apply set_rooms_same.
      * by rewrite lookup_alter_ne.
    + rewrite (dispatch_join w sid socket postId Hs). simpl.
      erewrite dispatch_leave; [|simpl; by rewrite lookup_alter_eq, Hs].
      simpl. apply map_eq. intros sid'. destruct (decide (sid' = sid)) as [->|Hne].
      * rewrite !lookup_alter_eq, Hs. simpl. f_equal. unfold set_rooms at 1. simpl.
        replace ((rooms socket ∪ {[room_of postId]}) ∖ {[room_of postId]})
          with (rooms socket)
          by (apply set_eq; intros room;
              rewrite elem_of_difference, elem_of_union, elem_of_singleton;
              split; [intros Hin; split; [by left|]; by intros ->|by intros [[?|?] ?]]).
        apply set_rooms_same.
      * by rewrite !lookup_alter_ne.
Qed.

End Rooms.

(** ** What every run from a world of some kind keeps *)

Section Holds.
Variable P : World → Prop.
Variable O : Delivery → Prop.

Lemma holds_ret {A} (a : A) : holds P O (ret a).
Proof. intros w Hw. split; [done|constructor]. Qed.

Lemma holds_throw {A} : holds P O (@throw A).
Proof. intros w Hw. split; [done|constructor]. Qed.

Lemma holds_get : holds P O get.
Proof. intros w Hw. split; [done|constructor]. Qed.

Lemma holds_modify f : (∀ w, P w → P (f w)) → holds P O (modify f).
Proof. intros Hf w Hw. split; [by apply Hf|constructor]. Qed.

Lemma holds_deliver ds : (∀ w, P w → Forall O (ds w)) → holds P O (deliver ds).
Proof. intros Hds w Hw. split; [done|by apply Hds]. Qed.

Lemma holds_round_trip `{Collaborators} :
  (∀ w o, P w → P (set_outages o w)) → holds P O round_trip.
Proof. intros Hout w Hw. split; [by apply Hout|constructor]. Qed.

Lemma holds_bind {A B} (m : M A) (f : A → M B) :
  holds P O m → (∀ a, holds P O (f a)) → holds P O (bind m f).
Proof.
  intros Hm Hf w Hw. specialize (Hm w Hw). unfold bind, reached, emitted in *.
  destruct (m w) as [[w1 o1] [a|]]; simpl in *; [|done].
  destruct Hm as [Hm1 Hm2]. specialize (Hf a w1 Hm1). unfold reached, emitted in Hf.
  destruct (f a w1) as [[w2 o2] r]; simpl in *.
  destruct Hf as [Hf1 Hf2]. split; [done|by apply Forall_app].
Qed.

Lemma holds_try_catch {A} (m h : M A) :
  holds P O m → holds P O h → holds P O (try_catch m h).
Proof.
  intros Hm Hh w Hw. specialize (Hm w Hw). unfold try_catch, reached, emitted in *.
  destruct (m w) as [[w1 o1] [a|]]; simpl in *; [done|].
  destruct Hm as [Hm1 Hm2]. specialize (Hh w1 Hm1). unfold reached, emitted in Hh.
  destruct (h w1) as [[w2 o2] r]; simpl in *.
  destruct Hh as [Hh1 Hh2]. split; [done|by apply Forall_app].
Qed.

End Holds.

Ltac holds_step :=
  lazymatch goal with
  | |- holds _ _ (bind _ _) => apply holds_bind; [|intros ?]
  | |- holds _ _ (try_catch _ _) => apply holds_try_catch
  | |- holds _ _ (ret _) => apply holds_ret
  | |- holds _ _ throw => apply holds_throw
  | |- holds _ _ get => apply holds_get
  | |- holds _ _ round_trip => apply holds_round_trip
  | |- holds _ _ (modify _) => apply holds_modify
  | |- holds _ _ (deliver _) => apply holds_deliver
  | |- holds _ _ (match ?x with _ => _ end) => destruct x
  end.

Ltac holds_run :=
  repeat first [ holds_step
               | progress autounfold with handlers
               | progress cbv beta zeta ].

Section Silence.
Context `{Collaborators}.

Lemma Forall_addressed_registered (O : Delivery → Prop) ev (P : nat * Socket → Prop)
    `{!∀ p, Decision (P p)} (m : gmap nat Socket) :
  (∀ sid s, m !! sid = Some s → O (sid, ev)) →
  Forall O (addressed ev (filter P (map_to_list m))).
Proof.
  intros HO. unfold addressed. apply Forall_fmap, Forall_forall. intros [sid s] Hin.
  apply list_elem_of_filter in Hin as [_ Hin]. apply elem_of_map_to_list in Hin.
  simpl. by eapply HO.
Qed.

Lemma dispatch_silent_for sid sid2 ev :
  sid2 ≠ sid →
  holds (λ w, sockets w !! sid = None) (λ d, d.1 ≠ sid) (dispatch sid2 ev).
Proof.
  intros Hne. destruct ev; holds_run.
  all: try done.
  all: try (intros w Hw; simpl; first [ by rewrite lookup_alter_ne
                                       | by rewrite lookup_delete_ne ]).
  all: intros w Hw; simpl;
    first [ by repeat constructor
          | repeat (apply Forall_addressed_registered; intros ? ? ?; simpl; congruence)
          | idtac ].
  all: try (unfold addressed; apply Forall_fmap, Forall_forall; intros [sid' s'] Hin;
            repeat (apply list_elem_of_filter in Hin as [_ Hin]);
            apply elem_of_map_to_list in Hin; simpl; congruence).
Qed.

(** X5. A socket that is not registered, because its handshake was
    refused or because it has disconnected, is handed no event
    whatever any socket sends, and no event registers it. *)
Theorem unregistered_socket_hears_nothing w sid sid2 ev :
  sockets w !! sid = None →
  let r := dispatch sid2 ev w in
  sockets (reached r) !! sid = None ∧ ∀ e, (sid, e) ∉ emitted r.
Proof.
  intros Hnone r. subst r. destruct (decide (sid2 = sid)) as [->|Hne].
  - rewrite dispatch_unknown by done. split; [done|]. intros e Hin.
    by apply elem_of_nil in Hin.
  - destruct (dispatch_silent_for sid sid2 ev Hne w Hnone) as [Hstill Hquiet].
    split; [done|]. intros e Hin. rewrite Forall_forall in Hquiet.
    by apply (Hquiet _ Hin).
Qed.

(** X6. On `disconnect` the sender leaves the registry, and with it
    every room; `user-status` with status offline is handed to every
    socket that remains, each once, and not to the one that left; and
    any event that still arrives from the socket that left is
    ignored. *)
Theorem disconnect_unregisters_and_announces w sid socket :
  sockets w !! sid = Some socket →
  let r := dispatch sid disconnect w in
  sockets (reached r) = delete sid (sockets w)
  ∧ (∀ room, ¬ member (reached r) sid room)
  ∧ NoDup (emitted r)
  ∧ (∀ sid' e, (sid', e) ∈ emitted r ↔
       e = user_status (userId socket) (username socket) offline
       ∧ sid' ≠ sid ∧ is_Some (sockets w !! sid'))
  ∧ (∀ ev, dispatch sid ev (reached r) = (reached r, [], Returned tt)).
Proof.
  intros Hs r. subst r.
  assert (dispatch sid disconnect w
          = (set_sockets (delete sid) w,
             addressed (user_status (userId socket) (username socket) offline)
               (filter (λ p, p.1 ≠ sid) (map_to_list (delete sid (sockets w)))),
             Returned tt)) as ->.
  { unfold dispatch. rewrite bind_get, Hs. done. }
  unfold reached, emitted, member. simpl.
  split; [done|]. split.
  { intros room (s & Hin & _). by rewrite lookup_delete_eq in Hin. }
  split.
  { apply NoDup_addressed, NoDup_filter_ids, NoDup_registry_ids. }
  split.
  - intros sid' e. rewrite elem_of_broadcast_emit. split.
    + intros (-> & Hne & Hin). rewrite lookup_delete_ne in Hin by done. done.
    + intros (-> & Hne & Hin). rewrite lookup_delete_ne by done. done.
  - intros ev. apply dispatch_unknown. simpl. apply lookup_delete_eq.
Qed.

(** X7. A `typing-stop` sent by socket [sid] about a post hands
    `user-stopped-typing`, with the sender's userId and username, to
    exactly the other sockets in the room of that post, each once. *)
Theorem typing_stop_reaches_other_members w sid socket postId :
  sockets w !! sid = Some socket →
  let r := dispatch sid (typing_stop postId) w in
  reached r = w
  ∧ NoDup (emitted r)
  ∧ (∀ sid' ev, (sid', ev) ∈ emitted r ↔
       ev = user_stopped_typing (userId socket) (username socket)
       ∧ sid' ≠ sid
       ∧ member w sid' (room_of postId)).
Proof.
  intros Hs r. subst r. unfold dispatch. rewrite bind_get, Hs.
  unfold on_typing_stop, socket_to_emit, deliver, reached, emitted. simpl.
  split; [done|]. split.
  { apply NoDup_addressed. do 2 apply NoDup_filter_ids. apply NoDup_registry_ids. }
  intros sid' ev. apply elem_of_room_emit_others.
Qed.

(** X8. A socket hears a room from its `join-post` to its
    `leave-post`: once socket [a] has joined the room of a post, a
    `typing-start` about that post from another socket [b] is handed
    to [a]; once [a] has left again, it is not. *)
Theorem room_heard_between_join_and_leave w a sa b sb postId type :
  sockets w !! a = Some sa →
  sockets w !! b = Some sb →
  a ≠ b →
  let joined := reached (dispatch a (join_post postId) w) in
  let left := reached (dispatch a (leave_post postId) joined) in
  (a, user_typing (userId sb) (username sb) type)
    ∈ emitted (dispatch b (typing_start postId type) joined)
  ∧ ∀ e, (a, e) ∉ emitted (dispatch b (typing_start postId type) left).
Proof.
  intros Ha Hb Hne joined left.
  assert (sockets joined !! a
          = Some (set_rooms (rooms sa ∪ {[room_of postId]}) sa)) as Hja.
  { subst joined. rewrite (dispatch_join w a sa postId Ha). simpl.
    by rewrite lookup_alter_eq, Ha. }
  assert (sockets joined !! b = Some sb) as Hjb.
  { subst joined. rewrite (dispatch_join w a sa postId Ha). simpl.
    by rewrite lookup_alter_ne. }
  assert (sockets left !! b = Some sb) as Hlb.
  { subst left. erewrite dispatch_leave by exact Hja. simpl.
    by rewrite lookup_alter_ne. }
  assert (∀ s, sockets left !! a = Some s → room_of postId ∉ rooms s) as Hla.
  { subst left. erewrite dispatch_leave by exact Hja. simpl.
    rewrite lookup_alter_eq, Hja. simpl. intros s Heq. injection Heq as <-. simpl.
    rewrite elem_of_difference, elem_of_singleton. by intros [_ ?]. }
  split.
  - unfold dispatch. rewrite bind_get, Hjb.
    unfold on_typing_start, socket_to_emit, deliver, emitted. simpl.
    apply elem_of_room_emit_others. split; [done|]. split; [done|].
    eexists. split; [exact Hja|]. simpl. apply elem_of_union. right.
    by apply elem_of_singleton.
  - intros e Hin. unfold dispatch in Hin. rewrite bind_get, Hlb in Hin.
    unfold on_typing_start, socket_to_emit, deliver, emitted in Hin. simpl in Hin.
    apply elem_of_room_emit_others in Hin as (_ & _ & s & Hs & Hroom).
    by apply (Hla s Hs).
Qed.

End Silence.

Section LiveWrites.
Context `{Collaborators}.

(** X9. A private message is persisted nowhere and is not routed to
    its recipient: when the lookup of the recipient finds a user, the
    message is handed to every registered socket, the sender's and
    those of third parties included, whether or not the recipient has
    a socket at all; when it finds none, the sender alone is told
    `User not found`; when it throws, the sender alone is told
    `Failed to send message`. *)
Theorem private_message_goes_to_everyone w sid socket toUserId message :
  sockets w !! sid = Some socket →
  let r := dispatch sid (send_private_message toUserId message) w in
  users (reached r) = users w ∧ posts (reached r) = posts w
  ∧ comments (reached r) = comments w ∧ sockets (reached r) = sockets w
  ∧ match result (findById users toUserId w) with
    | Returned (Some toUser) =>
        NoDup (emitted r)
        ∧ ∀ sid' e, (sid', e) ∈ emitted r ↔
            e = private_message (userId socket) (username socket) toUserId
                  (User.username toUser) message
            ∧ is_Some (sockets w !! sid')
    | Returned None => emitted r = [(sid, message_error "User not found")]
    | Thrown => emitted r = [(sid, message_error "Failed to send message")]
    end.
Proof.
  intros Hs r. subst r.
  remember (dispatch sid (send_private_message toUserId message) w) as r eqn:Hr.
  unfold dispatch in Hr. rewrite bind_get, Hs in Hr.
  unfold on_private_message, try_catch in Hr. unfold bind in Hr.
  rewrite findById_run in *. unfold result.
  destruct (is_object_id toUserId); simpl in *; [|subst r; by auto].
  destruct (outages w) as [|[] rest] eqn:Hout; simpl in *; [|subst r; by auto|].
  all: destruct (users w !! toUserId) as [toUser|]; simpl in Hr; subst r;
    unfold reached, emitted; simpl; [|by auto].
  all: do 4 (split; [done|]); split;
    [apply NoDup_addressed, NoDup_registry_ids|].
  all: intros sid' e; rewrite elem_of_addressed; split.
  all: try (intros [-> [s Hin]]; apply elem_of_map_to_list in Hin; eauto).
  all: intros [-> [s Hin]]; split; [done|]; exists s; by apply elem_of_map_to_list.
Qed.

(** X10. When the update of `update-comment` goes through (the id is
    an ObjectId, the round trip succeeds, the comment exists), the
    comment is stored with the trimmed new body and marked edited,
    its author, post, parent and likes as they were, whoever the
    sender is, whatever the length of the body, even none, and
    whatever post the client names; `comment-updated` then goes to the
    room of the post the client named, or, if the round trip of
    `populate` rejects, `comment-error` goes to the sender although
    the edit is stored. *)
Theorem update_comment_edits_unchecked w sid socket commentId content postId c :
  sockets w !! sid = Some socket →
  comments w !! commentId = Some c →
  is_object_id commentId = true →
  outages w !! 0 ≠ Some true →
  let r := dispatch sid (update_comment commentId content postId) w in
  let edited := Comment.mk (trim content) (Comment.author c) (Comment.post c)
                  (Comment.parentComment c) (Comment.likes c) true in
  comments (reached r) = <[commentId := edited]> (comments w)
  ∧ (outages w !! 1 ≠ Some true →
     emitted r
     = addressed
         (comment_updated {| view_id := commentId; view_doc := edited;
                             view_author := users w !! Comment.author c |} postId)
         (filter (in_room (room_of postId)) (map_to_list (sockets w))))
  ∧ (outages w !! 1 = Some true →
     emitted r = [(sid, comment_error "Failed to update comment")]).
Proof.
  intros Hs Hc Hid Htrip r edited. subst r.
  remember (dispatch sid (update_comment commentId content postId) w) as r eqn:Hr.
  unfold dispatch in Hr. rewrite bind_get, Hs in Hr.
  unfold on_update_comment, findByIdAndUpdate, populate, try_catch, cast_id, round_trip,
    get, modify, ret, throw, socket_emit, io_to_emit, deliver, bind in Hr.
  rewrite Hid in Hr. simpl in Hr.
  destruct (outages w) as [|[] rest] eqn:Hout; simpl in *; [|done|].
  all: rewrite Hc in Hr; simpl in Hr.
  - subst r. unfold reached, emitted. simpl. by repeat split.
  - destruct rest as [|[] rest']; simpl in *; subst r; unfold reached, emitted; simpl;
      by repeat split.
Qed.


End LiveWrites.

Section RestLikes.
Context `{Collaborators}.

Lemma toggle_is_an_action likes u :
  (if (indexOf likes u >? -1)%Z then splice likes (indexOf likes u)
   else likes ++ [toHexString u])
  = acted likes u (if bool_decide (u ∈ likes) then unlike else like)
  ∧ (indexOf likes u >? -1)%Z = bool_decide (u ∈ likes).
Proof.
  destruct (decide (u ∈ likes)) as [Hin|Hnin].
  - rewrite bool_decide_eq_true_2 by done.
    destruct (indexOf_present likes u Hin) as [Hpos _].
    destruct (Z.gtb_spec (indexOf likes u) (-1)); [|lia]. split; [|done].
    unfold acted. by destruct (Z.gtb_spec (indexOf likes u) (-1)); [|lia].
  - rewrite bool_decide_eq_false_2 by done. rewrite (indexOf_absent likes u Hnin).
    rewrite acted_like_absent by done. done.
Qed.

(** The run of a like route up to its save. *)
Lemma like_route_run w user e likes :
  likes_of w e = Some likes →
  is_object_id (entity_id e) = true →
  is_object_id (requester_id user) = true →
  outages w = [] →
  let u := requester_id user in
  let present := bool_decide (u ∈ likes) in
  let toggled := acted likes u (if present then unlike else like) in
  let r := like_route e user w in
  (saveable w e →
   result r = Returned (answer_likes (length toggled) (negb present))
   ∧ likes_of (reached r) e = Some toggled
   ∧ saveable (reached r) e
   ∧ outages (reached r) = [])
  ∧ (¬ saveable w e →
     result r = Returned answer_next_error ∧ likes_of (reached r) e = Some likes).
Proof.
  intros Hlikes Hid Hu Hup u present toggled r. subst r. subst u.
  destruct (toggle_is_an_action likes (requester_id user)) as [Htoggle Hpresent].
  fold present in Htoggle, Hpresent. fold toggled in Htoggle.
  remember (like_route e user w) as r eqn:Hr.
  destruct e as [id|id]; simpl in *.
  - split; [intros _|by intros []].
    destruct (posts w !! id) as [post|] eqn:Hpost; [|done].
    simpl in Hlikes. injection Hlikes as Hlikes.
    unfold like_post_route, try_catch in Hr. unfold bind at 1 in Hr.
    rewrite findById_run, Hid, Hup in Hr. simpl in Hr. rewrite Hpost in Hr.
    rewrite Hlikes in Hr. rewrite Hpresent in Hr.
    unfold push, save_post, round_trip, modify, ret, bind in Hr. rewrite Hu in Hr.
    destruct present eqn:Hp; simpl in Hr; subst r; unfold result, reached; simpl;
      rewrite lookup_insert_eq; simpl.
    + rewrite Hpresent in Htoggle. rewrite Htoggle.
      destruct (Z.eqb_spec (indexOf likes (requester_id user)) (-1)) as [Heq|]; [|done].
      rewrite Heq in Hpresent. done.
    + rewrite Hpresent in Htoggle. rewrite Htoggle.
      destruct (Z.eqb_spec (indexOf likes (requester_id user)) (-1)) as [|Hne]; [done|].
      pose proof (indexOf_absent likes (requester_id user)) as Habs.
      apply bool_decide_eq_false in Hp. by rewrite (Habs Hp) in Hne.
  - destruct (comments w !! id) as [c|] eqn:Hc; [|done].
    simpl in Hlikes. injection Hlikes as Hlikes.
    unfold like_comment_route, try_catch in Hr. unfold bind at 1 in Hr.
    rewrite findById_run, Hid, Hup in Hr. simpl in Hr. rewrite Hc in Hr.
    rewrite Hlikes in Hr. rewrite Hpresent in Hr.
    unfold push, save_comment, round_trip, modify, ret, throw, bind in Hr.
    rewrite Hu in Hr.
    destruct (content_in_bounds c) eqn:Hbounds.
    + split; [intros _|intros Hnot; exfalso; apply Hnot; intros c' Hc'; congruence].
      assert (∀ l, content_in_bounds (Comment.set_likes l c) = true) as Hkeep
        by (intros l; exact Hbounds).
      destruct present eqn:Hp; simpl in Hr; rewrite Hkeep in Hr; simpl in Hr; subst r;
        unfold result, reached; simpl; rewrite lookup_insert_eq; simpl.
      * rewrite Hpresent in Htoggle. rewrite Htoggle.
        destruct (Z.eqb_spec (indexOf likes (requester_id user)) (-1)) as [Heq|];
          [rewrite Heq in Hpresent; done|].
        split; [done|]. split; [done|]. split; [|done].
        intros c' Hc'. injection Hc' as <-. apply Hkeep.
      * rewrite Hpresent in Htoggle. rewrite Htoggle.
        destruct (Z.eqb_spec (indexOf likes (requester_id user)) (-1)) as [|Hne].
        -- split; [done|]. split; [done|]. split; [|done].
           intros c' Hc'. injection Hc' as <-. apply Hkeep.
        -- pose proof (indexOf_absent likes (requester_id user)) as Habs.
           apply bool_decide_eq_false in Hp. by rewrite (Habs Hp) in Hne.
    + split; [intros Hsave; specialize (Hsave c eq_refl); congruence|intros _].
      assert (∀ l, content_in_bounds (Comment.set_likes l c) = false) as Hkeep
        by (intros l; exact Hbounds).
      destruct present eqn:Hp; simpl in Hr; rewrite Hkeep in Hr; simpl in Hr; subst r;
        unfold result, reached; simpl; rewrite Hc; simpl; by rewrite Hlikes.
Qed.

(** X12. The REST like routes toggle when their save goes through.
    With the store answering, the requester's id spelled as ObjectIds
    print, and, for a comment, its stored body within the bounds that
    every save validates: a request by a user who is among the likers
    removes that user (the first occurrence), and a request by one who
    is not adds the user at the end; the answer carries the new length
    and whether the user now likes the entity; and on a
    repetition-free like list two requests in a row give back the same
    likers and the original count.  For a comment whose stored body is
    out of bounds the route toggles nothing: the like list stays as it
    was and the validation error is passed on. *)
Theorem rest_like_toggles_and_returns w user e likes :
  likes_of w e = Some likes →
  is_object_id (entity_id e) = true →
  is_object_id (requester_id user) = true →
  toHexString (requester_id user) = requester_id user →
  outages w = [] →
  let u := requester_id user in
  let present := bool_decide (u ∈ likes) in
  let toggled := acted likes u (if present then unlike else like) in
  let r1 := like_route e user w in
  let r2 := like_route e user (reached r1) in
  (saveable w e →
   result r1 = Returned (answer_likes (length toggled) (negb present))
   ∧ likes_of (reached r1) e = Some toggled
   ∧ (NoDup likes →
      (u ∈ toggled ↔ u ∉ likes)
      ∧ result r2 = Returned (answer_likes (length likes) present)
      ∧ ∃ likes2, likes_of (reached r2) e = Some likes2 ∧ likes2 ≡ₚ likes))
  ∧ (¬ saveable w e →
     result r1 = Returned answer_next_error ∧ likes_of (reached r1) e = Some likes).
Proof.
  intros Hlikes Hid Hu Hprint Hup u present toggled r1 r2.
  destruct (like_route_run w user e likes Hlikes Hid Hu Hup) as (Hgood & Hbad).
  split; [|exact Hbad]. intros Hsave.
  destruct (Hgood Hsave) as (Hres1 & Hl1 & Hsave1 & Hup1).
  fold u present toggled r1 in Hres1, Hl1, Hsave1, Hup1.
  split; [done|]. split; [done|]. intros Hnd.
  destruct (like_route_run (reached r1) user e toggled Hl1 Hid Hu Hup1) as (Hagain & _).
  destruct (Hagain Hsave1) as (Hres2 & Hl2 & _). fold u r2 in Hres2, Hl2.
  subst present toggled. destruct (decide (u ∈ likes)) as [Hin|Hnin].
  - rewrite bool_decide_eq_true_2 in * by done.
    destruct (acted_unlike_like likes u Hprint Hnd Hin) as (Hgone & Hperm & Hlen).
    rewrite (bool_decide_eq_false_2 _ Hgone) in Hres2, Hl2.
    rewrite Hlen in Hres2. split; [done|]. split; [done|]. eauto.
  - rewrite bool_decide_eq_false_2 in * by done.
    assert (u ∈ acted likes u like) as Hthere.
    { rewrite acted_like_absent by done. unfold u at 2. rewrite Hprint.
      apply elem_of_app. right. apply list_elem_of_here. }
    rewrite (bool_decide_eq_true_2 _ Hthere) in Hres2, Hl2.
    rewrite acted_like_unlike in Hres2, Hl2 by done.
    split; [done|]. split; [done|]. eauto.
Qed.

End RestLikes.

Section RestWrites.
Context `{Collaborators}.

Lemma eqb_author (c : Comment.t) (user : Requester) :
  negb (String.eqb (Comment.author c) (requester_id user))
  && negb (bool_decide (role user = Role.admin)) = false
  ↔ may_change user c.
Proof.
  unfold may_change. destruct (String.eqb_spec (Comment.author c) (requester_id user));
    simpl; [split; [by left|done]|].
  destruct (decide (role user = Role.admin)).
  - rewrite bool_decide_eq_true_2 by done. simpl. split; [by right|done].
  - rewrite bool_decide_eq_false_2 by done. simpl. split; [done|]. by intros [?|?].
Qed.


Lemma validated_update_in_bounds content c :
  validateCommentUpdate content = None →
  content_in_bounds (Comment.edit (trim content) c) = true
  ∧ (1 ≤ length (trim content) ≤ 1000)%nat.
Proof.
  unfold validateCommentUpdate, content_in_bounds. simpl.
  destruct (Nat.eqb_spec (length (trim content)) 0); [done|].
  destruct (Nat.ltb_spec 1000 (length (trim content))); [done|]. intros _.
  destruct (Nat.leb_spec (length (trim content)) 1000); simpl; [|lia].
  split; [done|lia].
Qed.


Lemma validated_action action reason :
  validateCommentModeration action reason = None →
  action = "approve" ∨ action = "reject" ∨ action = "delete" ∨ action = "flag".
Proof.
  unfold validateCommentModeration.
  destruct (decide (action ∈ ["approve"; "reject"; "delete"; "flag"])) as [Hin|Hnin].
  - intros _. rewrite !elem_of_cons, elem_of_nil in Hin. tauto.
  - rewrite bool_decide_eq_false_2 by done. done.
Qed.


End RestWrites.

Section Middleware.
Context `{Collaborators}.

Lemma split_spaceless s : spaceless s = true → split " " s = [s].
Proof.
  unfold spaceless. induction s as [|c s IH]; simpl; [done|].
  intros Hs. apply andb_prop in Hs as [Hc Hs]. apply negb_true_iff in Hc.
  rewrite Hc, (IH Hs). done.
Qed.

Lemma split_at_first_space scheme rest :
  spaceless scheme = true →
  split " " (scheme +:+ String " " rest) = scheme :: split " " rest.
Proof.
  unfold spaceless. induction scheme as [|c scheme IH]; simpl; [done|].
  intros Hs. apply andb_prop in Hs as [Hc Hs]. apply negb_true_iff in Hc.
  rewrite Hc, (IH Hs). done.
Qed.

Lemma header_token_second_word scheme token :
  spaceless scheme = true → spaceless token = true → token ≠ "" →
  or_null (header_token (Some (scheme +:+ String " " token))) = Some token.
Proof.
  intros Hscheme Htoken Hne. unfold header_token.
  assert (split " " (scheme +:+ String " " token) !! 1 = Some token) as Hsecond.
  { rewrite split_at_first_space, split_spaceless by done. done. }
  destruct (scheme +:+ String " " token) eqn:Hheader.
  - by destruct scheme.
  - rewrite Hsecond. simpl. by destruct token.
Qed.


(** X17. `optionalAuth` never refuses and never throws: it attaches
    exactly the user `authenticateToken` would attach to the same
    header in the same world, and where `authenticateToken` would
    answer 401 or 403 it passes the request on without a user. *)
Theorem optionalAuth_degrades_to_anonymous w authHeader :
  ∃ user,
    result (optionalAuth authHeader w) = Returned user
    ∧ reached (optionalAuth authHeader w) = reached (authenticateToken authHeader w)
    ∧ emitted (optionalAuth authHeader w) = []
    ∧ ∀ found, user = Some found
               ↔ result (authenticateToken authHeader w) = Returned (next found).
Proof.
  unfold optionalAuth, authenticateToken.
  destruct (or_null (header_token authHeader)) as [token|];
    [|exists None; unfold result, reached, emitted; simpl; by repeat split].
  unfold try_catch, bind, round_trip, ret, throw.
  destruct (jwt_verify token) as [[id|]|]; simpl.
  - rewrite findById_run. destruct (is_object_id id); simpl.
    + destruct (outages w) as [|[] rest]; simpl.
      all: try (destruct (users w !! id) as [user|]; simpl).
      all: eexists; unfold result, reached, emitted; simpl;
        (split; [done|]); (split; [done|]); (split; [done|]).
      all: intros found; split; intros Heq; try discriminate Heq;
        by injection Heq as <-.
    + exists None. unfold result, reached, emitted. simpl. by repeat split.
  - destruct (outages w) as [|[] rest]; simpl.
    all: exists None; unfold result, reached, emitted; simpl; by repeat split.
  - exists None. unfold result, reached, emitted. simpl. by repeat split.
Qed.

End Middleware.

(** ** The hook before a post is saved *)

Lemma split_white_length s : (1 ≤ length (split_white s) ≤ S (length s))%nat.
Proof.
  induction s as [|c s IH]; simpl; [lia|].
  destruct (is_white_space c).
  - destruct s as [|c' s']; simpl; [lia|].
    simpl in IH. destruct (is_white_space c'); simpl in *; lia.
  - destruct (split_white s) as [|piece pieces]; simpl in *; lia.
Qed.

Lemma ceil_div_bounds a b :
  (0 < b)%nat →
  (b * (ceil_div a b - 1) < a + (if decide (a = 0) then 1 else 0))%nat
  ∧ (a ≤ b * ceil_div a b)%nat.
Proof.
  intros Hb. unfold ceil_div.
  pose proof (Nat.div_mod_eq (a + b - 1) b) as Hdiv.
  pose proof (Nat.mod_upper_bound (a + b - 1) b ltac:(lia)) as Hmod.
  destruct (decide (a = 0)); nia.
Qed.

(** X18. When the content of a post is modified, the hook sets the
    read time to the number of pieces between runs of white space,
    divided by 200 and rounded up.  That is never 0: an empty content
    is one (empty) piece and reads in 1 minute; and a content of n
    units never gets more than n/200 + 1 minutes.  When the content is
    not modified the read time stays. *)
Theorem read_time_is_at_least_one status_modified now p :
  let saved := pre_save true status_modified now p in
  let words := length (split_white (doc_content p)) in
  (1 ≤ doc_readTime saved)%nat
  ∧ (200 * (doc_readTime saved - 1) < words ≤ 200 * doc_readTime saved)%nat
  ∧ (doc_readTime saved ≤ length (doc_content p) / 200 + 1)%nat
  ∧ (doc_content p = [] → doc_readTime saved = 1%nat)
  ∧ doc_readTime (pre_save false status_modified now p) = doc_readTime p
  ∧ doc_content saved = doc_content p.
Proof.
  intros saved words. subst saved. unfold pre_save. cbn [doc_readTime doc_content].
  cbv zeta. fold words.
  pose proof (split_white_length (doc_content p)) as [Hlow Hhigh]. fold words in Hlow, Hhigh.
  destruct (ceil_div_bounds words 200 ltac:(lia)) as [Hup Hdown].
  destruct (decide (words = 0)) as [?|_]; [lia|].
  assert (1 ≤ ceil_div words 200)%nat as Hone by (destruct (ceil_div words 200); lia).
  split; [done|]. split; [lia|]. split.
  - pose proof (Nat.div_mod_eq (length (doc_content p)) 200) as Hdiv.
    pose proof (Nat.mod_upper_bound (length (doc_content p)) 200 ltac:(lia)) as Hmod.
    nia.
  - split; [|done]. intros Hempty. subst words. rewrite Hempty. reflexivity.
Qed.

(** X19. The hook stamps `publishedAt` once: it sets the time when the
    status is modified to published and no time is recorded, and in
    no other case; a time once recorded survives every later save,
    also one that publishes again.  Running the hook a second time on
    its own result, at any later time, changes nothing. *)
Theorem published_at_is_stamped_once content_modified status_modified now p :
  let saved := pre_save content_modified status_modified now p in
  (∀ at_, doc_publishedAt p = Some at_ → doc_publishedAt saved = Some at_)
  ∧ (doc_publishedAt p = None →
     doc_publishedAt saved
     = if status_modified then
         match doc_status p with
         | published => Some now
         | _ => None
         end
       else None)
  ∧ doc_status saved = doc_status p
  ∧ ∀ later, pre_save content_modified status_modified later saved = saved.
Proof.
  intros saved. subst saved. unfold pre_save. simpl.
  split; [|split; [|split]].
  - intros at_ ->. by destruct status_modified, (doc_status p).
  - intros ->. by destruct status_modified, (doc_status p).
  - done.
  - intros later. f_equal.
    + by destruct content_modified.
    + destruct status_modified; [|done].
      by destruct (doc_status p), (doc_publishedAt p).
Qed.

(** ** The client's socket service *)

Lemma times_on_events_handleEvent {A} now event (data : Data A) :
  times_on_events event (handleEvent now event data) = 1%nat.
Proof.
  unfold times_on_events, handleEvent. rewrite !filter_cons, filter_nil.
  cbn [is_on_events]. rewrite String.eqb_refl. done.
Qed.

(** X20. An event arriving at the client is published on `events$`
    once by the `onAny` listener, unless its name starts with
    `connect`, `disconnect` or `reconnect` or is `error`, and once
    more by its own listener if it is one of the nine events that have
    one.  So of the events the server emits, `comment-updated`,
    `comment-deleted` and `user-typing` reach the subscribers twice
    and every other one once; both publications carry the payload. *)
Theorem client_publishes_some_events_twice {A} now_any now_own :
  (∀ eventName (args : list A),
     times_on_events eventName (receive now_any now_own eventName args)
     = (if String.prefix "connect" eventName || String.prefix "disconnect" eventName
           || String.prefix "reconnect" eventName || String.eqb eventName "error"
        then 0 else 1)
       + (if bool_decide (eventName ∈ custom_events) then 1 else 0))%nat
  ∧ (∀ (ev : ServerEvent) (payload : A),
       times_on_events (event_name ev) (receive now_any now_own (event_name ev) [payload])
       = match ev with
         | comment_updated _ _ | comment_deleted _ _ | user_typing _ _ _ => 2%nat
         | _ => 1%nat
         end
       ∧ ∀ e d, on_events e d ∈ receive now_any now_own (event_name ev) [payload] →
                e = event_name ev ∧ d = value payload).
Proof.
  assert (∀ eventName (args : list A),
     times_on_events eventName (receive now_any now_own eventName args)
     = (if String.prefix "connect" eventName || String.prefix "disconnect" eventName
           || String.prefix "reconnect" eventName || String.eqb eventName "error"
        then 0 else 1)
       + (if bool_decide (eventName ∈ custom_events) then 1 else 0))%nat as Hcount.
  { intros eventName args. unfold receive, handleGenericEvent, times_on_events.
    rewrite filter_app, length_app.
    fold (times_on_events eventName
            (if String.prefix "connect" eventName || String.prefix "disconnect" eventName
                || String.prefix "reconnect" eventName || String.eqb eventName "error"
             then []
             else handleEvent now_any eventName
                    match args with [a] => value a | _ => array args end)).
    fold (times_on_events eventName
            (if bool_decide (eventName ∈ custom_events)
             then handleEvent now_own eventName
                    match args with a :: _ => value a | [] => undefined end
             else [])).
    destruct (String.prefix "connect" eventName || String.prefix "disconnect" eventName
              || String.prefix "reconnect" eventName || String.eqb eventName "error");
      destruct (bool_decide (eventName ∈ custom_events));
      rewrite ?times_on_events_handleEvent; done. }
  split; [exact Hcount|]. intros ev payload. split.
  - rewrite Hcount. by destruct ev.
  - intros e d Hin. generalize dependent (event_name ev). intros eventName Hin.
    unfold receive, handleGenericEvent, handleEvent in Hin.
    destruct (String.prefix "connect" eventName || String.prefix "disconnect" eventName
              || String.prefix "reconnect" eventName || String.eqb eventName "error");
      destruct (bool_decide (eventName ∈ custom_events));
      rewrite ?elem_of_app, ?elem_of_cons, ?elem_of_nil in Hin.
    all: repeat match goal with
                | Hin : _ ∨ _ |- _ => destruct Hin as [Hin|Hin]
                | Hin : False |- _ => destruct Hin
                end.
    all: try discriminate Hin.
    all: by injection Hin as -> ->.
Qed.

(** ** The error handler *)

(** X21. An error made by `createError` is answered with the status
    and the message it was made with, the message `Internal Server
    Error` standing in for an empty one.  Whatever the error, the
    answer never has an empty message, and its status is 400 or 401
    for the five kinds of error the handler knows by name, whatever
    status such an error carries itself. *)
Theorem errorHandler_answers development :
  (∀ message statusCode stack,
     errorHandler development (createError message statusCode stack)
     = (statusCode,
        if String.eqb message "" then "Internal Server Error" else message,
        if development then Some stack else None))
  ∧ (∀ error, (errorHandler development error).1.2 ≠ "")
  ∧ (∀ error,
       AppError.name error ∈ ["ValidationError"; "JsonWebTokenError"; "TokenExpiredError";
                               "CastError"]
       ∨ (AppError.name error = "MongoError" ∧ AppError.code error = Some 11000%N) →
       (errorHandler development error).1.1 = 400
       ∨ (errorHandler development error).1.1 = 401).
Proof.
  split; [done|]. split.
  - intros error. unfold errorHandler. cbv zeta.
    repeat match goal with
           | |- context [if ?b then (_, _) else _] => destruct b
           end; simpl; try done.
    destruct (AppError.message error =? "") eqn:Hempty; [done|].
    intros Heq. rewrite Heq in Hempty. discriminate Hempty.
  - intros error Hknown. unfold errorHandler. cbv zeta.
    rewrite !elem_of_cons, elem_of_nil in Hknown.
    destruct Hknown as [[-> | [-> | [-> | [-> | []]]]]|[-> ->]]; simpl; auto.
Qed.

(** ** Two properties over the whole life of the server *)

Section Lifelong.
Context `{Collaborators}.

Lemma dispatch_identities sid ev w :
  identities_printed w → identities_printed (reached (dispatch sid ev w)).
Proof.
  intros Hw sid' s' Hs'.
  destruct (sockets w !! sid) as [socket|] eqn:Hs;
    [|rewrite dispatch_unknown in Hs' by done; by eapply Hw].
  destruct (dispatch_registry_kept sid ev w) as [[Hothers Hself] _].
  destruct (decide (sid' = sid)) as [->|Hne]; [|rewrite Hothers in Hs' by done; by eapply Hw].
  assert (ev = disconnect ∨ ev ≠ disconnect) as [->|Hev]
    by (destruct ev; auto; by right).
  - unfold dispatch in Hs'. rewrite bind_get, Hs in Hs'. simpl in Hs'.
    by rewrite lookup_delete_eq in Hs'.
  - destruct (Hself Hev socket Hs) as (s'' & Hs'' & Hid & _).
    assert (s'' = s') as -> by congruence. rewrite Hid. by eapply Hw.
Qed.

(** X22. With every event handled to its end before the next, every
    token that verifies carrying its userId spelled as ObjectIds print,
    and the sockets already registered bound to userIds so spelled: no
    identity ever comes to be twice in a like list over the live
    channel.  From a store whose like lists are free of repetitions,
    every world the server comes to by handshakes and events, whatever
    they are and whatever the store does, has like lists free of
    repetitions. *)
Theorem like_lists_never_repeat w w' :
  tokens_printed →
  identities_printed w →
  likes_distinct w →
  comes_to w w' →
  likes_distinct w' ∧ identities_printed w'.
Proof.
  intros Htokens Hbound Hinit Hrun.
  induction Hrun as [|w' sid token Hrun [IHl IHb]|w' sid ev Hrun [IHl IHb]].
  - done.
  - split.
    + intros e likes Hl. destruct (connect_stores sid token w') as [Hp Hc].
      rewrite (likes_of_ext _ _ e Hp Hc) in Hl. by eapply IHl.
    + intros sid' s' Hs'.
      destruct (connect_registry sid token w') as [Hsame|(t & id & name & Hv & Hnew)].
      * rewrite Hsame in Hs'. by eapply IHb.
      * rewrite Hnew in Hs'. destruct (decide (sid = sid')) as [<-|Hne].
        -- rewrite lookup_insert_eq in Hs'. injection Hs' as <-. simpl.
           by eapply Htokens.
        -- rewrite lookup_insert_ne in Hs' by done. by eapply IHb.
  - split; [|by apply dispatch_identities].
    intros e likes' Hl.
    destruct (dispatch_likes sid ev w' e likes' Hl)
      as [->|(likes & Hbefore & [->|(socket & action & Hs & ->)])].
    + constructor.
    + by eapply IHl.
    + apply acted_NoDup; [by eapply IHb|by eapply IHl].
Qed.


End Lifelong.

(** ** The further properties on the concrete deployment *)

(** Alice's socket sends `typing-start` and `new-comment` without a
    payload: the first throws out of its handler, the second is
    answered with the scoped error. *)
Lemma typing_without_payload_witness :
  result (@dispatch demo 1 (without_payload Name.typing_start) demo_world) = Thrown
  ∧ result (@dispatch demo 1 (without_payload Name.new_comment) demo_world) = Returned tt
  ∧ emitted (@dispatch demo 1 (without_payload Name.new_comment) demo_world)
    = [(1, comment_error "Failed to add comment")].
Proof.
  split; [|split].
  - destruct (@handlers_contain_their_failures demo demo_world 1
                (without_payload Name.typing_start)) as (_ & Hthrows).
    destruct Hthrows as (Hresult & _); [reflexivity|by eexists|exact Hresult].
  - destruct (@handlers_contain_their_failures demo demo_world 1
                (without_payload Name.new_comment)) as (Hreturns & _).
    destruct Hreturns as (Hresult & _); [reflexivity|exact Hresult].
  - reflexivity.
Defined.

(** Carol joins the room of post 42 and is a member of it. *)
Lemma join_post_witness :
  member (reached (@dispatch demo 3 (join_post post_42) demo_world)) 3 (room_of post_42).
Proof.
  destruct (@join_post_adds_one_membership demo demo_world 3
              {| userId := carol_id; username := "carol"; rooms := ∅ |} post_42 eq_refl)
    as (_ & Hiff & _).
  apply Hiff. by right.
Defined.

(** Alice leaves the room of post 42 and is a member of it no more. *)
Lemma leave_post_witness :
  ¬ member (reached (@dispatch demo 1 (leave_post post_42) demo_world)) 1 (room_of post_42).
Proof.
  destruct (@leave_post_removes_one_membership demo demo_world 1
              {| userId := alice_id; username := "alice"; rooms := {[ room_of post_42 ]} |}
              post_42 eq_refl) as (_ & Hiff & _).
  intros Hin. apply Hiff in Hin as [_ Hnot]. by apply Hnot.
Defined.

(** No socket 9 is registered; Alice's announcement does not reach it. *)
Lemma unregistered_socket_witness :
  sockets (reached (@dispatch demo 1 user_online demo_world)) !! 9 = None
  ∧ (9, user_status alice_id "alice" online)
      ∉ emitted (@dispatch demo 1 user_online demo_world).
Proof.
  destruct (@unregistered_socket_hears_nothing demo demo_world 9 1 user_online eq_refl)
    as [Hstill Hquiet].
  split; [exact Hstill|apply Hquiet].
Defined.

(** Alice disconnects: Bob is told she is offline, and she is gone. *)
Lemma disconnect_witness :
  sockets (reached (@dispatch demo 1 disconnect demo_world)) !! 1 = None
  ∧ (2, user_status alice_id "alice" offline)
      ∈ emitted (@dispatch demo 1 disconnect demo_world).
Proof.
  destruct (@disconnect_unregisters_and_announces demo demo_world 1
              {| userId := alice_id; username := "alice"; rooms := {[ room_of post_42 ]} |}
              eq_refl) as (Hreg & _ & _ & Hiff & _).
  split.
  - rewrite Hreg. apply lookup_delete_eq.
  - apply Hiff. split; [done|]. split; [done|]. by eexists.
Defined.

(** Alice stops typing in the room of post 42: Bob is told. *)
Lemma typing_stop_witness :
  (2, user_stopped_typing alice_id "alice")
    ∈ emitted (@dispatch demo 1 (typing_stop post_42) demo_world).
Proof.
  destruct (@typing_stop_reaches_other_members demo demo_world 1
              {| userId := alice_id; username := "alice"; rooms := {[ room_of post_42 ]} |}
              post_42 eq_refl) as (_ & _ & Hiff).
  apply Hiff. split; [done|]. split; [done|].
  eexists. split; [reflexivity|]. simpl. by apply elem_of_singleton.
Defined.

(** Carol joins the room of post 42 and is handed Bob's typing signal. *)
Lemma room_heard_witness :
  (3, user_typing bob_id "bob" comment)
    ∈ emitted (@dispatch demo 2 (typing_start post_42 comment)
                 (reached (@dispatch demo 3 (join_post post_42) demo_world))).
Proof.
  destruct (@room_heard_between_join_and_leave demo demo_world 3
              {| userId := carol_id; username := "carol"; rooms := ∅ |} 2
              {| userId := bob_id; username := "bob"; rooms := {[ room_of post_42 ]} |}
              post_42 comment eq_refl eq_refl) as [Hheard _]; [done|].
  exact Hheard.
Defined.

(** Alice writes to Carol: Bob's socket is handed the message too. *)
Lemma private_message_witness :
  (2, private_message alice_id "alice" carol_id "carol" "hi")
    ∈ emitted (@dispatch demo 1 (send_private_message carol_id "hi") demo_world).
Proof.
  destruct (@private_message_goes_to_everyone demo demo_world 1
              {| userId := alice_id; username := "alice"; rooms := {[ room_of post_42 ]} |}
              carol_id "hi" eq_refl) as (_ & _ & _ & _ & Hmatch).
  assert (result (@findById demo _ users carol_id demo_world)
          = Returned (Some (User.mk "carol"))) as Hfound by reflexivity.
  rewrite Hfound in Hmatch. destruct Hmatch as [_ Hiff].
  apply Hiff. split; [done|]. by eexists.
Defined.

(** Bob empties the body of Alice's comment over the live channel. *)
Lemma update_comment_witness :
  comments (reached (@dispatch demo 2 (update_comment comment_7 (said "  ") post_42)
                       liked_world)) !! comment_7
  = Some (Comment.mk [] alice_id post_42 None [bob_id] true).
Proof.
  destruct (@update_comment_edits_unchecked demo liked_world 2
              {| userId := bob_id; username := "bob"; rooms := {[ room_of post_42 ]} |}
              comment_7 (said "  ") post_42
              (Comment.mk (said "first") alice_id post_42 None [bob_id] false)
              eq_refl eq_refl eq_refl) as (Hstored & _); [done|].
  rewrite Hstored. apply lookup_insert_eq.
Defined.


(** Bob likes post 42 over REST, and a second request takes the like
    back. *)
Lemma rest_like_witness :
  result (@like_route demo (a_post post_42) {| requester_id := bob_id; role := Role.user |}
            demo_world)
  = Returned (answer_likes 1 true).
Proof.
  destruct (@rest_like_toggles_and_returns demo demo_world
              {| requester_id := bob_id; role := Role.user |} (a_post post_42) []
              eq_refl eq_refl eq_refl eq_refl eq_refl) as (Htoggles & _).
  destruct (Htoggles Logic.I) as (Hanswer & _).
  exact Hanswer.
Defined.

(** The like lists of the concrete deployment hold no one twice, and
    still do after Bob's like. *)
Lemma like_lists_stay_distinct_witness :
  likes_distinct (reached (@dispatch issued 2 (post_like post_42 like) demo_world)).
Proof.
  apply (@like_lists_never_repeat issued demo_world).
  - intros token id Hv. cbn [jwt_verify issued] in Hv. unfold issued_verify in Hv.
    destruct (demo_verify token) as [[id'|]|]; try discriminate Hv.
    destruct (bool_decide (demo_print id' = id')) eqn:Hprint; [|discriminate Hv].
    injection Hv as <-. by apply bool_decide_eq_true in Hprint.
  - intros sid s Hs. unfold demo_world in Hs. cbn [sockets] in Hs.
    destruct (decide (sid = 1)) as [->|Hne1].
    + rewrite lookup_insert_eq in Hs. injection Hs as <-. reflexivity.
    + rewrite lookup_insert_ne in Hs by done.
      destruct (decide (sid = 2)) as [->|Hne2].
      * rewrite lookup_insert_eq in Hs. injection Hs as <-. reflexivity.
      * rewrite lookup_insert_ne in Hs by done.
        destruct (decide (sid = 3)) as [->|Hne3].
        -- rewrite lookup_singleton_eq in Hs. injection Hs as <-. reflexivity.
        -- rewrite lookup_singleton_ne in Hs by done. done.
  - intros [id|id] likes Hlikes; unfold likes_of, demo_world in Hlikes;
      cbn [posts comments] in Hlikes.
    + destruct (decide (id = post_42)) as [->|Hne42].
      * rewrite lookup_insert_eq in Hlikes. injection Hlikes as <-. constructor.
      * rewrite lookup_insert_ne in Hlikes by done.
        destruct (decide (id = post_43)) as [->|Hne43].
        -- rewrite lookup_singleton_eq in Hlikes. injection Hlikes as <-. constructor.
        -- rewrite lookup_singleton_ne in Hlikes by done. done.
    + by rewrite lookup_empty in Hlikes.
  - apply comes_to_dispatch, comes_to_here.
Defined.

